(** * Buddhabrot renderer: a shallow embedding and its properties

    The development follows the C++ sources: the lattice rasterizer
    [binary_mandelbrot], the bitmap transforms [im_edge], [im_invert],
    [im_or], [im_dilate], the good-point collection [im_collect_points],
    the per-worker sampler [BuddhabrotThread::sample], the aggregator
    [merge_results] and the colormap lookup [Colormap::by_name].

    Conventions of the embedding.
    - [std::uint64_t] values are integers of [Z]; every unsigned operation
      that can leave the range is wrapped with [wrap64].
    - The floating-point type of the code (the template parameter [T],
      [float] in the rasterizer) is a type with the operations of the class
      [Scalar]; control-flow properties are proved for every such type, and
      properties that depend on arithmetic laws are proved for the exact
      rationals [Q], the values the floating-point operations approximate.
    - A random engine is a type with the operations of the class [Engine];
      [std::random_device] is the value the device yields when called.
    - An access outside a vector is undefined behaviour in C++: every
      operation that performs one returns [None]; so does an operation
      that throws. Whether [points.reserve] returns is told by a type's
      [Allocator]. *)

From Stdlib Require Import ZArith QArith Qround Qabs Lia Lqa String.
From stdpp Require Import base option list.

Close Scope Q_scope.
Open Scope Z_scope.

(** ** Machine integers *)

Definition wrap64 (z : Z) : Z := z mod 2 ^ 64.

(** ** Vectors *)

(** [v[i]] for an unsigned index [i]. *)
Definition vec_get {A} (v : list A) (i : Z) : option A :=
  if 0 <=? i then v !! Z.to_nat i else None.

(** [v[i] = a]. *)
Definition vec_set {A} (i : Z) (a : A) (v : list A) : option (list A) :=
  if (0 <=? i) && (i <? Z.of_nat (length v)) then Some (<[Z.to_nat i := a]> v)
  else None.

(** ** Counting loops *)

(** [for (k = lo; k < hi; ++k) body], threading the state and stopping at the
    first undefined step. *)
Fixpoint for_loop {St} (n : nat) (k : Z) (body : Z → St → option St) (s : St)
  : option St :=
  match n with
  | O => Some s
  | S n' => s' ← body k s; for_loop n' (k + 1) body s'
  end.

Definition for_range {St} (lo hi : Z) (body : Z → St → option St) (s : St)
  : option St :=
  for_loop (Z.to_nat (hi - lo)) lo body s.

(** ** Scalars and complex numbers *)

Class Scalar (T : Type) := {
  of_Q : Q → T;            (* literals and integer-to-floating conversions *)
  add : T → T → T;
  sub : T → T → T;
  mul : T → T → T;
  div : T → T → T;
  fabs : T → T;             (* std::abs *)
  ltb : T → T → bool;       (* operator< *)
  trunc : T → Z             (* conversion to std::int64_t *)
}.

Definition Qtrunc (q : Q) : Z := Z.quot (Qnum q) (Z.pos (Qden q)).

Definition Qltb (a b : Q) : bool := negb (Qle_bool b a).

#[export] Instance Q_scalar : Scalar Q := {|
  of_Q q := q;
  add := Qplus;
  sub := Qminus;
  mul := Qmult;
  div := Qdiv;
  fabs := Qabs;
  ltb := Qltb;
  trunc := Qtrunc
|}.

Section Numeric.
Context {T : Type} `{Scalar T}.

Definition of_Z (z : Z) : T := of_Q (inject_Z z).

(** [std::lerp(a, b, t)], the value a + t (b - a). *)
Definition lerp (a b t : T) : T := add a (mul t (sub b a)).

(** [std::clamp(v, lo, hi)]. *)
Definition clamp (v lo hi : T) : T :=
  if ltb v lo then lo else if ltb hi v then hi else v.

(** cmap.h, [remap]. *)
Definition remap (from_lo from_hi to_lo to_hi v : T) : T :=
  lerp to_lo to_hi
    (clamp (div (sub v from_lo) (sub from_hi from_lo)) (of_Z 0) (of_Z 1)).

Record complex := Complex { re : T; im : T }.

Definition czero : complex := Complex (of_Z 0) (of_Z 0).

Definition cadd (a b : complex) : complex :=
  Complex (add (re a) (re b)) (add (im a) (im b)).

Definition cmul (a b : complex) : complex :=
  Complex (sub (mul (re a) (re b)) (mul (im a) (im b)))
          (add (mul (re a) (im b)) (mul (im a) (re b))).

(** [std::norm(z)], the squared magnitude. *)
Definition norm (z : complex) : T :=
  add (mul (re z) (re z)) (mul (im z) (im z)).

(** [for (i = 0; i < max_iter && std::norm(z) < bound; ++i) z = z * z + c;]
    with [fuel] the iterations left. *)
Fixpoint iterate_while (fuel : nat) (bound : T) (c z : complex) : complex :=
  match fuel with
  | O => z
  | S fuel' =>
      if ltb (norm z) bound
      then iterate_while fuel' bound c (cadd (cmul z z) c)
      else z
  end.

(** The sampler's loop, which also records every value it computes. *)
Fixpoint orbit (fuel : nat) (c z : complex) (points : list complex)
  : complex * list complex :=
  match fuel with
  | O => (z, points)
  | S fuel' =>
      if ltb (norm z) (of_Z 8)
      then let z' := cadd (cmul z z) c in orbit fuel' c z' (points ++ [z'])
      else (z, points)
  end.
End Numeric.

Arguments complex T : clear implicits.

(** ** Random engines and distributions *)

Definition random_device := Z.

Class Engine (T E : Type) := {
  default_engine : E;                 (* a default-constructed engine *)
  seeded : Z → E;                     (* an engine constructed from a seed *)
  canonical : E → T * E;              (* the next variate of [0, 1) *)
  uniform_int : Z → Z → E → Z * E     (* uniform_int_distribution(lo, hi)(eng) *)
}.

Section Distributions.
Context {T E : Type} `{Scalar T} `{Engine T E}.

(** [std::uniform_real_distribution(a, b)(eng)]. *)
Definition uniform_real (a b : T) (eng : E) : T * E :=
  let '(u, eng) := canonical eng in (add a (mul u (sub b a)), eng).

(** [std::bernoulli_distribution(p)(eng)]. *)
Definition bernoulli (p : T) (eng : E) : bool * E :=
  let '(u, eng) := canonical eng in (ltb u p, eng).
End Distributions.

(** ** The lattice rasterizer *)

Section Rasterizer.
Context {T E : Type} `{Scalar T} `{Engine T E}.

(** The state threaded through the two loops of [binary_mandelbrot]. *)
Definition raster_state : Type := E * list bool.

(** The body of the inner loop, for the cell [(x, y)]. *)
Definition raster_cell (size max_iter : Z) (delta im_y : T) (y x : Z)
    (st : raster_state) : option raster_state :=
  let '(eng, result) := st in
  let re_x := lerp (of_Z (-2)) (of_Z 2) (div (of_Z x) (of_Z size)) in
  let lo := mul (of_Q (-(1 # 4))) delta in
  let hi := mul (of_Q (1 # 4)) delta in
  let '(o1, eng) := uniform_real lo hi eng in
  let '(o2, eng) := uniform_real lo hi eng in
  let c := Complex (add re_x o1) (add im_y o2) in
  let z := iterate_while (Z.to_nat max_iter) (of_Z 4) c czero in
  if ltb (norm z) (of_Z 4)
  then result ← vec_set (wrap64 (y * size + x)) true result; Some (eng, result)
  else Some (eng, result).

Definition raster_row (size max_iter : Z) (delta : T) (y : Z)
    (st : raster_state) : option raster_state :=
  let im_y := lerp (of_Z (-2)) (of_Z 2) (div (of_Z y) (of_Z size)) in
  for_range 0 size (raster_cell size max_iter delta im_y y) st.

(** [binary_mandelbrot(size, max_iter)]. The random device [rd] is
    constructed by the function; the engine is default-constructed. *)
Definition binary_mandelbrot (rd : random_device) (size max_iter : Z)
  : option (list bool) :=
  let result := replicate (Z.to_nat (wrap64 (size * size))) false in
  let delta := div (of_Z 4) (of_Z size) in
  let eng : E := default_engine in
  st ← for_range 0 size (raster_row size max_iter delta) (eng, result);
  Some (snd st).
End Rasterizer.

(** ** Bitmap transforms *)

(** The [in_bounds] lambda of [im_edge] and [im_dilate]. *)
Definition in_bounds (im : list bool) (idx : Z) : bool :=
  (0 <=? idx) && (idx <? Z.of_nat (length im)).

(** [im[idx]] where the code has checked [in_bounds(idx)] before. *)
Definition im_at (im : list bool) (idx : Z) : bool :=
  default false (vec_get im idx).

(** [im_edge(im, size)]: [result[i]] is written once for every index. *)
Definition im_edge (im : list bool) (size : Z) : list bool :=
  let deltas := [- size; -1; 1; size] in
  (λ i, im_at im i
        && existsb (λ delta, in_bounds im (i + delta) && negb (im_at im (i + delta)))
             deltas)
    <$> seqZ 0 (Z.of_nat (length im)).

Definition im_invert (im : list bool) : list bool := negb <$> im.

(** [im_or(im1, im2)]: [std::transform] over [im1] reads [im2] at the same
    positions, which must exist. *)
Definition im_or (im1 im2 : list bool) : option (list bool) :=
  if (length im1 <=? length im2)%nat then Some (zip_with orb im1 im2) else None.

Definition im_dilate (im : list bool) (size : Z) : list bool :=
  let deltas := [- size; -1; 0; 1; size] in
  (λ i, existsb (λ delta, in_bounds im (i + delta) && im_at im (i + delta)) deltas)
    <$> seqZ 0 (Z.of_nat (length im)).

Section Collect.
Context {T : Type} `{Scalar T}.

Definition collect_cell (im : list bool) (size : Z) (ci : T) (y x : Z)
    (points : list (T * T)) : option (list (T * T)) :=
  let cr := lerp (of_Z (-2)) (of_Z 2) (div (of_Z x) (of_Z size)) in
  b ← vec_get im (wrap64 (y * size + x));
  Some (if b : bool then points ++ [(cr, ci)] else points).

Definition collect_row (im : list bool) (size : Z) (y : Z)
    (points : list (T * T)) : option (list (T * T)) :=
  let ci := lerp (of_Z (-2)) (of_Z 2) (div (of_Z y) (of_Z size)) in
  for_range 0 size (collect_cell im size ci y) points.

(** [im_collect_points(im, size)]. *)
Definition im_collect_points (im : list bool) (size : Z)
  : option (list (T * T)) :=
  for_range 0 size (collect_row im size) [].
End Collect.

(** [find_good_points(size, max_iter, n_dilations)]. *)
Section FindGoodPoints.
Context {T E : Type} `{Scalar T} `{Engine T E}.

Definition dilation_round (size : Z) (_ : Z) (st : list bool * list bool)
  : option (list bool * list bool) :=
  let '(im, result) := st in
  let im := im_dilate im size in
  let dilated_reverse_edge := im_edge (im_invert im) size in
  result ← im_or result dilated_reverse_edge;
  Some (im, result).

Definition find_good_points (rd : random_device) (size max_iter n_dilations : Z)
  : option (list (T * T)) :=
  im ← binary_mandelbrot (E := E) rd size max_iter;
  let result := im_edge im size in
  let reverse_edge := im_edge (im_invert im) size in
  result ← im_or result reverse_edge;
  st ← for_range 0 n_dilations (dilation_round size) (im, result);
  im_collect_points (snd st) size.
End FindGoodPoints.

(** ** The allocation of the orbit buffer *)

(** [points.reserve(n)] on the vector of [std::complex<T>] either returns,
    or throws [std::length_error], when [n] exceeds the vector's
    [max_size()], or [std::bad_alloc], when the memory is not there.
    [reserve n] tells whether it returns. *)
Class Allocator (T : Type) := { reserve : Z → bool }.

(** The allocator of the concrete runs: the vector of 16-byte elements of
    libstdc++ on a 64-bit target, which holds at most 2^59 - 1 elements,
    with all the memory it asks for. *)
#[export] Instance Q_allocator : Allocator Q :=
  {| reserve n := (0 <=? n) && (n <? 2 ^ 59) |}.

(** ** The orbit sampler *)

Section Sampler.
Context {T E : Type} `{Scalar T} `{Engine T E} {alloc : Allocator T}.

Record BuddhabrotThread := {
  size : Z;
  max_iter : Z;
  counts : list Z;
  p_uniform : T;
  good_points : list (T * T);
  point_radius : T;
  progress : Z
}.

Definition set_counts (th : BuddhabrotThread) (cs : list Z) : BuddhabrotThread :=
  {| size := size th; max_iter := max_iter th; counts := cs;
     p_uniform := p_uniform th; good_points := good_points th;
     point_radius := point_radius th; progress := progress th |}.

Definition set_progress (th : BuddhabrotThread) (v : Z) : BuddhabrotThread :=
  {| size := size th; max_iter := max_iter th; counts := counts th;
     p_uniform := p_uniform th; good_points := good_points th;
     point_radius := point_radius th; progress := v |}.

(** A run of [sample]: the engine, the worker and the values written to
    [progress] so far, oldest first. *)
Record run := Run { eng : E; self : BuddhabrotThread; writes : list Z }.

Definition write_progress (v : Z) (r : run) : run :=
  Run (eng r) (set_progress (self r) v) (writes r ++ [v]).

(** [point_idx_dist], built before the loop from [good_points.size() - 1]. *)
Definition point_idx_dist (th : BuddhabrotThread) : E → Z * E :=
  uniform_int 0 (wrap64 (Z.of_nat (length (good_points th)) - 1)).

(** The choice of the start point [c]. *)
Definition propose (th : BuddhabrotThread) (eng : E) : option (complex T * E) :=
  let '(b, eng) := bernoulli (p_uniform th) eng in
  if b : bool then
    let '(cr, eng) := uniform_real (of_Z (-2)) (of_Z 2) eng in
    let '(ci, eng) := uniform_real (of_Z (-2)) (of_Z 2) eng in
    Some (Complex cr ci, eng)
  else
    let '(idx, eng) := point_idx_dist th eng in
    '(rmid, imid) ← vec_get (good_points th) idx;
    let '(cr, eng) :=
      uniform_real (sub rmid (point_radius th)) (add rmid (point_radius th)) eng in
    let '(ci, eng) :=
      uniform_real (sub imid (point_radius th)) (add imid (point_radius th)) eng in
    Some (Complex cr ci, eng).

(** [counts[i]++]. *)
Definition bump (i : Z) (cs : list Z) : option (list Z) :=
  c ← vec_get cs i; vec_set i (wrap64 (c + 1)) cs.

(** The histogram column and row of a recorded point. *)
Definition cell_x (sz : Z) (z : complex T) : Z :=
  trunc (remap (of_Z (-2)) (of_Z 2) (of_Z 0) (of_Z (wrap64 (sz - 1))) (re z)).

Definition cell_y (sz : Z) (z : complex T) : Z :=
  trunc (remap (of_Z (-2)) (of_Z 2) (of_Z 0) (of_Z (wrap64 (sz - 1))) (im z)).

Definition cell_index (sz : Z) (z : complex T) : Z :=
  wrap64 (cell_y sz z * sz + cell_x sz z).

Definition mirror_index (sz : Z) (z : complex T) : Z :=
  wrap64 ((sz - cell_y sz z - 1) * sz + cell_x sz z).

(** The test that skips a recorded point. *)
Definition out_of_view (z : complex T) : bool :=
  ltb (of_Z 2) (fabs (re z)) || ltb (of_Z 2) (fabs (im z)).

(** The body of [for (auto z_sample : points)]. *)
Definition plot (sz : Z) (cs : list Z) (z_sample : complex T) : option (list Z) :=
  if out_of_view z_sample then Some cs
  else
    cs ← bump (cell_index sz z_sample) cs;
    bump (mirror_index sz z_sample) cs.

Fixpoint plot_all (sz : Z) (cs : list Z) (points : list (complex T))
  : option (list Z) :=
  match points with
  | [] => Some cs
  | z :: points => cs ← plot sz cs z; plot_all sz cs points
  end.

(** What one start point [c] does to the histogram. *)
Definition accumulate (th : BuddhabrotThread) (c : complex T) : option (list Z) :=
  let '(z, points) := orbit (Z.to_nat (max_iter th)) c czero [] in
  if ltb (norm z) (of_Z 4) then Some (counts th)
  else plot_all (size th) (counts th) points.

(** The body of the loop over [k]. *)
Definition sample_step (k : Z) (r : run) : option run :=
  let r := if k mod 1000 =? 0 then write_progress (wrap64 (k + 1)) r else r in
  '(c, eng) ← propose (self r) (eng r);
  cs ← accumulate (self r) c;
  Some (Run eng (set_counts (self r) cs) (writes r)).

(** [sample(n_points)] on the worker [th]: the engine is seeded, the
    buffer of orbit points reserved, and the loop run. *)
Definition sample (rd : random_device) (n_points : Z) (th : BuddhabrotThread)
  : option run :=
  let eng := seeded rd in
  if reserve (max_iter th) then
    r ← for_range 0 n_points sample_step (Run eng th []);
    Some (write_progress n_points r)
  else None.

(** ** The aggregator *)

(** One [std::transform] of [merge_results]. *)
Definition merge_into (result : list Z) (th : BuddhabrotThread) : option (list Z) :=
  if (length result <=? length (counts th))%nat
  then Some (zip_with (λ cur res, wrap64 (cur + res)) result (counts th))
  else None.

Fixpoint merge_all (result : list Z) (threads : list BuddhabrotThread)
  : option (list Z) :=
  match threads with
  | [] => Some result
  | th :: threads => result ← merge_into result th; merge_all result threads
  end.

(** [merge_results(threads)]; [threads.front()] needs a first element. *)
Definition merge_results (threads : list BuddhabrotThread) : option (list Z) :=
  front ← head threads;
  merge_all (replicate (Z.to_nat (wrap64 (size front * size front))) 0) threads.
End Sampler.

Arguments BuddhabrotThread T : clear implicits.
Arguments run T E : clear implicits.

(** ** Colormaps *)

(** The tables of cmap_data.h, by name. *)
Inductive cmap_table := viridis | inferno | plasma | magma | rocket | mako.

Inductive exception := invalid_argument (what : string).

Section Colormaps.
Context {T : Type} `{Scalar T}.

Record Colormap := { cmap : cmap_table; vmin : T; vmax : T }.

(** The constructor [Colormap(cmap)] with the default range. *)
Definition new_Colormap (table : cmap_table) : Colormap :=
  {| cmap := table; vmin := of_Z 0; vmax := of_Z 1 |}.

(** [Colormap::by_name(name)]: the colormap, or the exception thrown. *)
Definition by_name (name : string) : Colormap + exception :=
  if String.eqb name "viridis" then inl (new_Colormap viridis)
  else if String.eqb name "inferno" then inl (new_Colormap inferno)
  else if String.eqb name "plasma" then inl (new_Colormap plasma)
  else if String.eqb name "magma" then inl (new_Colormap magma)
  else if String.eqb name "rocket" then inl (new_Colormap rocket)
  else if String.eqb name "mako" then inl (new_Colormap mako)
  else inr (invalid_argument "Invalid colormap name").
End Colormaps.

Arguments Colormap T : clear implicits.

(** ** A reference engine for concrete runs

    The engine state is a counter; the variates walk through the eighths of
    [0, 1) and the integers through the requested range. *)

#[export] Instance stride_engine : Engine Q nat := {|
  default_engine := 1%nat;
  seeded z := Z.to_nat z;
  canonical n := (inject_Z (Z.of_nat n mod 8) / 8, S n)%Q;
  uniform_int lo hi n := (lo + Z.of_nat n mod (hi - lo + 1), S n)
|}.

(** ** The specification's reading of [edge]

    Cell [i] of an [S]-by-[S] grid has column [i mod S] and row [i / S]; its
    4-connected neighbours are the cells one step up, left, right and down
    that exist in the grid. *)

Definition grid_neighbours (S i : Z) : list Z :=
  let x := i mod S in
  let y := i / S in
  (if 0 <? y then [i - S] else [])
  ++ (if 0 <? x then [i - 1] else [])
  ++ (if x <? S - 1 then [i + 1] else [])
  ++ (if y <? S - 1 then [i + S] else []).

Definition edge_spec (B : list bool) (S : Z) : list bool :=
  (λ i, im_at B i && existsb (λ j, negb (im_at B j)) (grid_neighbours S i))
    <$> seqZ 0 (Z.of_nat (length B)).

(** ** The points the rasterizer tests *)

Section RasterizerPoints.
Context {T E : Type} `{Scalar T} `{Engine T E}.

(** The engine after [n] variates have been drawn from it. *)
Definition engine_after (n : nat) (e : E) : E :=
  Nat.iter n (λ e, snd (canonical e)) e.

(** The jittered point of the cell [(x, y)]: the loops reach it after
    [y * size + x] cells, each of which drew two offsets. *)
Definition jittered_point (size x y : Z) : complex T :=
  let delta := div (of_Z 4) (of_Z size) in
  let lo := mul (of_Q (-(1 # 4))) delta in
  let hi := mul (of_Q (1 # 4)) delta in
  let eng : E := engine_after (2 * Z.to_nat (y * size + x)) default_engine in
  let '(o1, eng) := uniform_real lo hi eng in
  let '(o2, _) := uniform_real lo hi eng in
  Complex (add (lerp (of_Z (-2)) (of_Z 2) (div (of_Z x) (of_Z size))) o1)
          (add (lerp (of_Z (-2)) (of_Z 2) (div (of_Z y) (of_Z size))) o2).

(** [|z|² < 4] at the exit of the rasterizer's escape loop for [c]. *)
Definition stays_inside (max_iter : Z) (c : complex T) : bool :=
  ltb (norm (iterate_while (Z.to_nat max_iter) (of_Z 4) c czero)) (of_Z 4).
End RasterizerPoints.

(** ** The escape test, as the specification words it *)

(** These definitions follow the specification, not the code: the
    sequence z₀ = 0, z ← z² + c, the test |z|² < 4, and the round at which
    a loop that goes on while |z|² < 4 and the count is below [M] is left. *)
Section EscapeTest.
Context {T : Type} `{Scalar T}.

(** The value of z after [k] rounds of z ← z² + c from z₀ = 0. *)
Definition quadratic_orbit (c : complex T) (k : nat) : complex T :=
  Nat.iter k (λ z, cadd (cmul z z) c) czero.

(** |z|² < 4. *)
Definition norm_below_4 (z : complex T) : bool := ltb (norm z) (of_Z 4).

(** The loop is left after [j] rounds: the test |z|² < 4 held before each
    of the [j] rounds, and after them either the count has reached [M] or
    the test fails. *)
Definition exits_after (M : nat) (c : complex T) (j : nat) : Prop :=
  (j ≤ M)%nat
  ∧ (∀ k, (k < j)%nat → norm_below_4 (quadratic_orbit c k) = true)
  ∧ (j = M ∨ norm_below_4 (quadratic_orbit c j) = false).

(** The point [c] does not escape within [M] rounds: |z|² < 4 holds for
    z₀, ..., z_M. *)
Definition never_escapes (M : nat) (c : complex T) : Prop :=
  ∀ k, (k ≤ M)%nat → norm_below_4 (quadratic_orbit c k) = true.
End EscapeTest.

(** ** The catalog of colormap names *)

Definition catalog : list string :=
  ["viridis"; "inferno"; "plasma"; "magma"; "rocket"; "mako"]%string.

(** ** Sums of histograms *)

Section HistogramSums.
Context {T : Type}.

(** The sum of the cell [i] over the workers' histograms. *)
Definition cell_sum (threads : list (BuddhabrotThread T)) (i : nat) : Z :=
  foldr (λ th acc, default 0 (counts th !! i) + acc) 0 threads.

(** Every worker has the side length [S] and a histogram of [S * S]
    cells, as [std::vector<std::uint64_t>(size * size)] builds it. *)
Definition same_dimensions (S : Z) (threads : list (BuddhabrotThread T)) : Prop :=
  Forall (λ th, size th = S ∧ length (counts th) = Z.to_nat (wrap64 (S * S)))
    threads.

Definition all_zero (th : BuddhabrotThread T) : Prop :=
  Forall (λ c, c = 0) (counts th).
End HistogramSums.

(** ** Visits of histogram cells *)

(** [counts[i]++] on one cell. *)
Definition incr (c : Z) : Z := wrap64 (c + 1).

Section Visits.
Context {T : Type} `{Scalar T}.

(** The increments a recorded point makes to the cell of index [j]: one
    when [j] is the point's cell, one when [j] is its mirror cell, none
    when the point is out of view. *)
Definition hits (sz : Z) (j : Z) (z : complex T) : nat :=
  if out_of_view z then 0%nat
  else ((if decide (cell_index sz z = j) then 1 else 0)
        + (if decide (mirror_index sz z = j) then 1 else 0))%nat.

Definition visits (sz : Z) (j : Z) (points : list (complex T)) : nat :=
  foldr (λ z acc, (hits sz j z + acc)%nat) 0%nat points.

(** The end of the sampler's orbit for the start point [c]. *)
Definition orbit_of (th : BuddhabrotThread T) (c : complex T)
  : complex T * list (complex T) :=
  orbit (Z.to_nat (max_iter th)) c czero [].

(** The orbit's final [|z|²] is below 4. *)
Definition non_escaping (th : BuddhabrotThread T) (c : complex T) : bool :=
  ltb (norm (fst (orbit_of th c))) (of_Z 4).
End Visits.

(** ** Progress writes *)

(** The values the loop of [sample] writes to [progress] during its first
    [k] iterations: [k' + 1] for every multiple [k'] of 1000 below [k]. *)
Definition stride_writes (k : Z) : list Z :=
  (λ i, 1000 * i + 1) <$> seqZ 0 ((k + 999) / 1000).

(** ** Reference workers *)

(** A fresh worker of side length [sz] with the mix probability [p], as
    [main] builds its template: an all-zero histogram of [sz * sz] cells. *)
Definition worker (sz : Z) (p : Q) (good : list (Q * Q)) : BuddhabrotThread Q :=
  {| size := sz; max_iter := 5; counts := replicate (Z.to_nat (sz * sz)) 0;
     p_uniform := p; good_points := good; point_radius := (1 # 2)%Q;
     progress := 0 |}.

(** ** The ranges of the distributions *)

(** What the standard library promises of an engine's variates: the
    canonical variate lies in [0, 1) and the integer one in its range. *)
Definition lawful (E : Type) `{Engine Q E} : Prop :=
  (∀ e : E, (0 <= fst (canonical e))%Q ∧ (fst (canonical e) < 1)%Q)
  ∧ (∀ lo hi (e : E), lo ≤ hi → lo ≤ fst (uniform_int lo hi e) ≤ hi).

(** ** Lattice coordinates *)

Section Coordinates.
Context {T : Type} `{Scalar T}.

(** The coordinate that the rasterizer and the collection of good points
    give the lattice index [k]. *)
Definition lattice_coord (size k : Z) : T :=
  lerp (of_Z (-2)) (of_Z 2) (div (of_Z k) (of_Z size)).
End Coordinates.

(** ** Invariants and relations used in the proofs *)

Section Invariants.
Context {T E : Type} `{Scalar T} `{Engine T E}.

(** What holds when the loops have visited the first [k] cells. *)
Definition raster_inv (size max_iter k : Z) (st : raster_state (E := E)) : Prop :=
  fst st = engine_after (2 * Z.to_nat k) default_engine
  ∧ length (snd st) = Z.to_nat (size * size)
  ∧ (∀ x y, 0 ≤ x < size → 0 ≤ y < size → y * size + x < k →
       snd st !! Z.to_nat (y * size + x)
       = Some (stays_inside max_iter (jittered_point (E := E) size x y)))
  ∧ (∀ j, k ≤ j < size * size → snd st !! Z.to_nat j = Some false).

(** The two indices of an in-view point are inside the histogram. *)
Definition plots_inside (sz : Z) (len : nat) (z : complex T) : Prop :=
  out_of_view z = false →
  0 ≤ cell_index sz z < Z.of_nat len ∧ 0 ≤ mirror_index sz z < Z.of_nat len.

(** Every collected point is the pair of lattice coordinates of a cell
    that is true in the bitmap. *)
Definition collected_from (im : list bool) (size : Z) (points : list (T * T)) : Prop :=
  ∀ p, In p points →
    ∃ x y, 0 ≤ x < size ∧ 0 ≤ y < size
           ∧ im !! Z.to_nat (y * size + x) = Some true
           ∧ p = (lattice_coord size x, lattice_coord size y).

End Invariants.

(** ** The true cells of a bitmap *)

Section TrueCells.
Context {T : Type} `{Scalar T}.

(** The flat indices of the true cells of the grid, in row-major order. *)
Definition true_cells (im : list bool) (size : Z) : list Z :=
  filter (λ k, im_at im k = true) (seqZ 0 (size * size)).

(** The point collected for the cell of flat index [k]: the lattice
    coordinates of its column [k mod size] and its row [k / size]. *)
Definition cell_point (size k : Z) : T * T :=
  (lattice_coord size (k mod size), lattice_coord size (k / size)).
End TrueCells.

(** ** Totals and mirror images of histograms *)

(** The sum of the cells of a histogram. *)
Definition total (cs : list Z) : Z := foldr Z.add 0 cs.

(** The flat index of the cell that mirrors the cell [j] about the
    horizontal axis: same column, row [sz - 1 - j / sz]. *)
Definition mirror_cell (sz j : Z) : Z := (sz - 1 - j / sz) * sz + j mod sz.

(** Every cell of the histogram holds the count of its mirror cell. *)
Definition mirror_symmetric (sz : Z) (cs : list Z) : Prop :=
  ∀ j, 0 ≤ j < sz * sz → cs !! Z.to_nat j = cs !! Z.to_nat (mirror_cell sz j).

Section InView.
Context {T : Type} `{Scalar T}.

(** The number of recorded points that are plotted. *)
Definition in_view_count (points : list (complex T)) : Z :=
  Z.of_nat (length (filter (λ z, out_of_view z = false) points)).
End InView.

(** ** Colormap lookup of a value *)

(** The conversion of a truncated floating-point value to [int], defined
    when the value fits. *)
Definition to_int (z : Z) : option Z :=
  if (- 2 ^ 31 <=? z) && (z <? 2 ^ 31) then Some z else None.

Section ColormapLookup.
Context {T : Type} `{Scalar T}.

(** The rows of the tables of cmap_data.h. *)
Variable table : cmap_table → list (T * T * T).

(** [Colormap::set_vrange(new_vmin, new_vmax)]. *)
Definition set_vrange (cm : Colormap T) (new_vmin new_vmax : T) : Colormap T :=
  {| cmap := cmap cm; vmin := new_vmin; vmax := new_vmax |}.

(** [Colormap::operator()(v)]: the rows [left] and [left + 1] of the table,
    interpolated channel by channel. *)
Definition colormap_apply (cm : Colormap T) (v : T) : option (T * T * T) :=
  let rows := table (cmap cm) in
  let v_scaled :=
    remap (vmin cm) (vmax cm) (of_Z 0)
      (of_Z (wrap64 (Z.of_nat (length rows) - 1))) v in
  i ← to_int (trunc v_scaled);
  let left := wrap64 i in
  let right := wrap64 (left + 1) in
  let frac := sub v_scaled (of_Z left) in
  '(l0, l1, l2) ← vec_get rows left;
  '(r0, r1, r2) ← vec_get rows right;
  Some (lerp l0 r0 frac, lerp l1 r1 frac, lerp l2 r2 frac).
End ColormapLookup.

(** A table of two rows, black and white, for every name. *)
Definition two_rows (_ : cmap_table) : list (Q * Q * Q) :=
  [(0, 0, 0)%Q; (1, 1, 1)%Q].

(** ** The progress bar *)

(** The conversion of an unsigned 64-bit value to [int]. *)
Definition to_int32 (z : Z) : Z := (z + 2 ^ 31) mod 2 ^ 32 - 2 ^ 31.

(** The glyphs of [print_progress], from the empty cell to the full block. *)
Definition eighths : list string :=
  [" "; "▏"; "▎"; "▍"; "▌"; "▋"; "▊"; "▊"; "█"]%string.

(** The cells that [print_progress(progress, max_progress, elapsed)] writes
    between the brackets of the bar: [whole] full blocks and, unless the
    progress is complete, one partial block and the spaces that fill the
    width. The quotients are unsigned 64-bit values converted to [int];
    the division by a zero [max_progress], an overflow of [8 * whole] and a
    glyph index outside [eighths] are undefined, and a count of spaces of
    2^63 or more, which is what [width - whole - 1] wraps to when [whole]
    exceeds 31, is beyond the length a string can have: the constructor
    throws. *)
Definition progress_bar (progress max_progress : Z) : option (list string) :=
  let width := 32 in
  if max_progress =? 0 then None
  else
    let whole := to_int32 (wrap64 (width * progress) / max_progress) in
    whole8 ← to_int (8 * whole);
    let part :=
      to_int32 (wrap64 (wrap64 (8 * width * progress) / max_progress - whole8)) in
    full ← last eighths;
    let blocks := replicate (Z.to_nat whole) full in
    if progress =? max_progress then Some blocks
    else
      cell ← vec_get eighths (wrap64 part);
      let spaces := wrap64 (width - whole - 1) in
      if spaces <? 2 ^ 63
      then Some (blocks ++ [cell] ++ replicate (Z.to_nat spaces) " "%string)
      else None.

(** * Properties *)

(** ** Loops and vectors *)

Lemma wrap64_small z : 0 ≤ z < 2 ^ 64 → wrap64 z = z.
Proof. intros Hz. unfold wrap64. now apply Z.mod_small. Qed.

Lemma wrap64_range z : 0 ≤ wrap64 z < 2 ^ 64.
Proof. unfold wrap64. apply Z.mod_pos_bound. lia. Qed.

Lemma wrap64_add_l a b : wrap64 (wrap64 a + b) = wrap64 (a + b).
Proof. unfold wrap64. now rewrite Zplus_mod_idemp_l. Qed.

Lemma vec_get_Some {A} (v : list A) i a :
  vec_get v i = Some a ↔ 0 ≤ i ∧ v !! Z.to_nat i = Some a.
Proof.
  unfold vec_get. destruct (Z.leb_spec 0 i); split; intros Hi;
    try tauto; try discriminate; lia.
Qed.

Lemma vec_get_in_range {A} (v : list A) i :
  0 ≤ i < Z.of_nat (length v) → ∃ a, vec_get v i = Some a.
Proof.
  intros Hi. destruct (lookup_lt_is_Some_2 v (Z.to_nat i)) as [a Ha]; [lia|].
  exists a. apply vec_get_Some. split; [lia|easy].
Qed.

Lemma vec_get_out_of_range {A} (v : list A) i :
  Z.of_nat (length v) ≤ i → vec_get v i = None.
Proof.
  intros Hi. unfold vec_get. destruct (Z.leb_spec 0 i); [|easy].
  apply lookup_ge_None. lia.
Qed.

Lemma vec_set_Some {A} i (a : A) v :
  0 ≤ i < Z.of_nat (length v) → vec_set i a v = Some (<[Z.to_nat i := a]> v).
Proof.
  intros Hi. unfold vec_set.
  destruct (Z.leb_spec 0 i); [|lia].
  destruct (Z.ltb_spec i (Z.of_nat (length v))); [easy|lia].
Qed.

(** The rule of a counting loop: an invariant that every step inside the
    range preserves holds when the loop ends, and the loop does end. *)
Lemma for_loop_inv {St} (I : Z → St → Prop) (body : Z → St → option St) n k s :
  I k s →
  (∀ j t, k ≤ j < k + Z.of_nat n → I j t → ∃ t', body j t = Some t' ∧ I (j + 1) t') →
  ∃ s', for_loop n k body s = Some s' ∧ I (k + Z.of_nat n) s'.
Proof.
  revert k s. induction n as [|n IH]; intros k s Hs Hstep; simpl.
  - exists s. split; [easy|]. now replace (k + Z.of_nat 0) with k by lia.
  - destruct (Hstep k s) as (t & Ht & HI); [lia|easy|].
    rewrite Ht. simpl.
    destruct (IH (k + 1) t HI) as (s' & Hs' & HI').
    + intros j u Hj. apply Hstep. lia.
    + exists s'. split; [easy|].
      now replace (k + Z.of_nat (S n)) with (k + 1 + Z.of_nat n) by lia.
Qed.

Lemma for_range_inv {St} (I : Z → St → Prop) (body : Z → St → option St) lo hi s :
  lo ≤ hi →
  I lo s →
  (∀ j t, lo ≤ j < hi → I j t → ∃ t', body j t = Some t' ∧ I (j + 1) t') →
  ∃ s', for_range lo hi body s = Some s' ∧ I hi s'.
Proof.
  intros Hle Hs Hstep. unfold for_range.
  destruct (for_loop_inv I body (Z.to_nat (hi - lo)) lo s Hs) as (s' & Hs' & HI).
  - intros j t Hj. apply Hstep. lia.
  - exists s'. split; [easy|].
    now replace (lo + Z.of_nat (Z.to_nat (hi - lo))) with hi in HI by lia.
Qed.

Lemma flat_index_inj S x y x' y' :
  0 ≤ x < S → 0 ≤ x' < S → y * S + x = y' * S + x' → x = x' ∧ y = y'.
Proof.
  intros Hx Hx' Heq.
  assert (y = y') by nia. subst. lia.
Qed.

Lemma flat_index_lt S x y : 0 ≤ x < S → 0 ≤ y < S → 0 ≤ y * S + x < S * S.
Proof. intros Hx Hy. nia. Qed.

(** ** The lattice rasterizer *)

Section RasterizerFacts.
Context {T E : Type} `{Scalar T} `{Engine T E}.

Lemma engine_after_S n (e : E) :
  engine_after (S n) e = snd (canonical (engine_after n e)).
Proof. reflexivity. Qed.

Lemma raster_cell_inv size max_iter y x st :
  size * size < 2 ^ 64 → 0 ≤ x < size → 0 ≤ y < size →
  raster_inv size max_iter (y * size + x) st →
  ∃ st',
    raster_cell size max_iter (div (of_Z 4) (of_Z size))
      (lerp (of_Z (-2)) (of_Z 2) (div (of_Z y) (of_Z size))) y x st = Some st'
    ∧ raster_inv size max_iter (y * size + (x + 1)) st'.
Proof.
  intros Hsz Hx Hy (Heng & Hlen & Hdone & Htodo).
  destruct st as [eng0 res]. cbn [fst snd] in *.
  pose proof (flat_index_lt size x y Hx Hy) as Hk.
  assert (Hval : stays_inside max_iter (jittered_point (E := E) size x y)
                 = ltb (norm (iterate_while (Z.to_nat max_iter) (of_Z 4)
                     (let '(o1, e1) := uniform_real
                          (mul (of_Q (-(1 # 4))) (div (of_Z 4) (of_Z size)))
                          (mul (of_Q (1 # 4)) (div (of_Z 4) (of_Z size))) eng0 in
                      let '(o2, _) := uniform_real
                          (mul (of_Q (-(1 # 4))) (div (of_Z 4) (of_Z size)))
                          (mul (of_Q (1 # 4)) (div (of_Z 4) (of_Z size))) e1 in
                      Complex
                        (add (lerp (of_Z (-2)) (of_Z 2) (div (of_Z x) (of_Z size))) o1)
                        (add (lerp (of_Z (-2)) (of_Z 2) (div (of_Z y) (of_Z size))) o2))
                     czero)) (of_Z 4)).
  { unfold stays_inside, jittered_point. now rewrite <- Heng. }
  assert (Heng' : ∀ o1 e1 o2 e2 lo hi,
             uniform_real lo hi eng0 = (o1, e1) → uniform_real lo hi e1 = (o2, e2) →
             e2 = engine_after (2 * Z.to_nat (y * size + (x + 1))) default_engine).
  { intros o1 e1 o2 e2 lo hi H1 H2. unfold uniform_real in H1, H2.
    replace (2 * Z.to_nat (y * size + (x + 1)))%nat
      with (S (S (2 * Z.to_nat (y * size + x)))) by lia.
    rewrite !engine_after_S, <- Heng.
    destruct (canonical eng0) as [u1 e1'] eqn:Hc1. injection H1 as _ <-.
    destruct (canonical e1') as [u2 e2'] eqn:Hc2. injection H2 as _ <-.
    simpl. now rewrite Hc2. }
  unfold raster_cell. revert Hval.
  destruct (uniform_real _ _ eng0) as [o1 e1] eqn:H1.
  destruct (uniform_real _ _ e1) as [o2 e2] eqn:H2.
  intros Hval. specialize (Heng' _ _ _ _ _ _ H1 H2).
  rewrite <- Hval.
  destruct (stays_inside max_iter (jittered_point size x y)) eqn:Hin.
  - rewrite wrap64_small by lia. rewrite vec_set_Some by lia. simpl.
    eexists. split; [reflexivity|]. repeat split; simpl.
    + exact Heng'.
    + now rewrite length_insert.
    + intros x' y' Hx' Hy' Hlt.
      destruct (decide (y' * size + x' = y * size + x)) as [Heq|Hne].
      * apply flat_index_inj in Heq as [-> ->]; [|lia..].
        rewrite list_lookup_insert_eq by lia. now rewrite Hin.
      * rewrite list_lookup_insert_ne.
        -- apply Hdone; lia.
        -- pose proof (flat_index_lt size x' y' Hx' Hy'). lia.
    + intros j Hj. rewrite list_lookup_insert_ne by lia. apply Htodo. lia.
  - eexists. split; [reflexivity|]. repeat split; simpl.
    + exact Heng'.
    + exact Hlen.
    + intros x' y' Hx' Hy' Hlt.
      destruct (decide (y' * size + x' = y * size + x)) as [Heq|Hne].
      * apply flat_index_inj in Heq as [-> ->]; [|lia..].
        rewrite Hin. apply Htodo. lia.
      * apply Hdone; lia.
    + intros j Hj. apply Htodo. lia.
Qed.

Lemma raster_row_inv size max_iter y st :
  size * size < 2 ^ 64 → 0 ≤ y < size →
  raster_inv size max_iter (y * size) st →
  ∃ st',
    raster_row size max_iter (div (of_Z 4) (of_Z size)) y st = Some st'
    ∧ raster_inv size max_iter ((y + 1) * size) st'.
Proof.
  intros Hsz Hy Hinv. unfold raster_row.
  destruct (for_range_inv (λ x, raster_inv size max_iter (y * size + x))
              (raster_cell size max_iter (div (of_Z 4) (of_Z size))
                 (lerp (of_Z (-2)) (of_Z 2) (div (of_Z y) (of_Z size))) y)
              0 size st) as (st' & Hst' & Hinv').
  - lia.
  - now rewrite Z.add_0_r.
  - intros x t Hx Ht. now apply raster_cell_inv.
  - exists st'. split; [easy|].
    now replace ((y + 1) * size) with (y * size + size) by lia.
Qed.
End RasterizerFacts.

Section RasterizerTheorems.
Context {T E : Type} `{Scalar T} `{Engine T E}.

(** The code's escape loop, started at [z] with [fuel] rounds left, makes
    [j] rounds: the test held before each of them, and after them either
    the fuel is used up or the test fails. *)
Lemma iterate_while_exits (fuel : nat) (c z : complex T) :
  ∃ j, (j ≤ fuel)%nat
    ∧ (∀ k, (k < j)%nat →
         norm_below_4 (Nat.iter k (λ z, cadd (cmul z z) c) z) = true)
    ∧ (j = fuel ∨ norm_below_4 (Nat.iter j (λ z, cadd (cmul z z) c) z) = false)
    ∧ iterate_while fuel (of_Z 4) c z = Nat.iter j (λ z, cadd (cmul z z) c) z.
Proof.
  revert z. induction fuel as [|fuel IH]; intros z.
  - exists 0%nat. repeat split; [lia|intros k Hk; lia|now left].
  - cbn [iterate_while].
    destruct (ltb (norm z) (of_Z 4)) eqn:Hz.
    + destruct (IH (cadd (cmul z z) c)) as (j & Hj & Hbefore & Hlast & Hval).
      exists (S j). repeat split.
      * lia.
      * intros [|k] Hk; [exact Hz|].
        rewrite Nat.iter_succ_r. apply Hbefore. lia.
      * rewrite Nat.iter_succ_r. destruct Hlast as [->|Hlast]; [now left|now right].
      * now rewrite Nat.iter_succ_r.
    + exists 0%nat. repeat split; [lia|intros k Hk; lia|now right].
Qed.

(** The round at which the loop is left is determined by [M] and [c]. *)
Lemma exits_after_unique (M : nat) (c : complex T) (j j' : nat) :
  exits_after M c j → exits_after M c j' → j = j'.
Proof.
  intros (Hj & Hb & Hl) (Hj' & Hb' & Hl').
  destruct (Nat.lt_trichotomy j j') as [Hlt|[Heq|Hgt]]; [|exact Heq|].
  - destruct Hl as [->|Hl]; [lia|]. rewrite (Hb' j Hlt) in Hl. discriminate.
  - destruct Hl' as [->|Hl']; [lia|]. rewrite (Hb j' Hgt) in Hl'. discriminate.
Qed.

(** At the round where the loop is left, the test holds exactly for the
    points that do not escape. *)
Lemma exits_after_never_escapes (M : nat) (c : complex T) (j : nat) :
  exits_after M c j →
  norm_below_4 (quadratic_orbit c j) = true ↔ never_escapes M c.
Proof.
  intros (Hj & Hb & Hl). split.
  - intros Hin k Hk. destruct Hl as [->|Hl]; [|congruence].
    destruct (decide (k = M)) as [->|Hne]; [exact Hin|]. apply Hb. lia.
  - intros Hall. now apply Hall.
Qed.

(** The rasterizer returns a bitmap of [size * size] cells whose cell
    [(x, y)] holds the outcome of the last test of the escape loop. *)
Lemma binary_mandelbrot_cells (rd : random_device) size max_iter :
  0 ≤ size → size * size < 2 ^ 64 →
  ∃ bm,
    binary_mandelbrot (E := E) rd size max_iter = Some bm
    ∧ length bm = Z.to_nat (size * size)
    ∧ ∀ x y, 0 ≤ x < size → 0 ≤ y < size →
        bm !! Z.to_nat (y * size + x)
        = Some (stays_inside max_iter (jittered_point (E := E) size x y)).
Proof.
  intros Hpos Hsz. unfold binary_mandelbrot.
  destruct (for_range_inv (λ y, raster_inv size max_iter (y * size))
              (raster_row size max_iter (div (of_Z 4) (of_Z size))) 0 size
              (default_engine, replicate (Z.to_nat (wrap64 (size * size))) false))
    as (st & Hst & Heng & Hlen & Hdone & _).
  - exact Hpos.
  - rewrite wrap64_small by nia. repeat split; simpl.
    + now rewrite length_replicate.
    + intros x y Hx Hy Hlt. nia.
    + intros j Hj. apply lookup_replicate_2. lia.
  - intros y t Hy Ht. now apply raster_row_inv.
  - rewrite Hst. simpl. exists (snd st). repeat split; [exact Hlen|].
    intros x y Hx Hy. apply Hdone; [easy..|].
    pose proof (flat_index_lt size x y Hx Hy). lia.
Qed.

(** C7. For every side length [size] (whose square fits the unsigned
    64-bit index type) and every iteration cap, the rasterizer returns a
    bitmap of [size * size] cells. For the jittered point c of the cell
    [(x, y)], take the loop that iterates z ← z² + c from z₀ = 0 while
    [|z|² < 4] and fewer than [max_iter] rounds were made: it is left
    after some number [j] of rounds, and the cell stores whether
    [|z|² < 4] holds for the value z_j it is left with. So the cell is
    true exactly when c does not escape, that is, when [|z|² < 4] holds
    for each of z₀, ..., z_[max_iter]. *)
Theorem binary_mandelbrot_stores_non_escape (rd : random_device) size max_iter :
  0 ≤ size → size * size < 2 ^ 64 →
  ∃ bm,
    binary_mandelbrot (E := E) rd size max_iter = Some bm
    ∧ length bm = Z.to_nat (size * size)
    ∧ ∀ x y, 0 ≤ x < size → 0 ≤ y < size →
        let c := jittered_point (E := E) size x y in
        (∃ j, exits_after (Z.to_nat max_iter) c j
              ∧ bm !! Z.to_nat (y * size + x)
                = Some (norm_below_4 (quadratic_orbit c j)))
        ∧ (bm !! Z.to_nat (y * size + x) = Some true
           ↔ never_escapes (Z.to_nat max_iter) c).
Proof.
  intros Hpos Hsz.
  destruct (binary_mandelbrot_cells rd size max_iter Hpos Hsz)
    as (bm & Hbm & Hlen & Hcells).
  exists bm. split; [exact Hbm|]. split; [exact Hlen|].
  intros x y Hx Hy c. rewrite (Hcells x y Hx Hy). fold c. unfold stays_inside.
  destruct (iterate_while_exits (Z.to_nat max_iter) c czero)
    as (j & Hj & Hbefore & Hlast & Hval).
  assert (Hexit : exits_after (Z.to_nat max_iter) c j) by (repeat split; easy).
  rewrite Hval.
  change (Nat.iter j (λ z, cadd (cmul z z) c) czero) with (quadratic_orbit c j).
  change (ltb (norm (quadratic_orbit c j)) (of_Z 4))
    with (norm_below_4 (quadratic_orbit c j)).
  split.
  - exists j. split; [exact Hexit|reflexivity].
  - pose proof (exits_after_never_escapes _ _ _ Hexit) as Hiff.
    split.
    + intros [= Hin]. now apply Hiff.
    + intros Hall. f_equal. now apply Hiff.
Qed.

(** C10. The rasterizer does not depend on the random device: its engine
    is default-constructed, so two invocations with the same side length
    and iteration cap return the same bitmap whatever the device yields. *)
Theorem binary_mandelbrot_deterministic (rd1 rd2 : random_device) size max_iter :
  binary_mandelbrot (E := E) rd1 size max_iter
  = binary_mandelbrot (E := E) rd2 size max_iter.
Proof. reflexivity. Qed.
End RasterizerTheorems.

Lemma binary_mandelbrot_stores_non_escape_witness :
  0 ≤ 4 ∧ 4 * 4 < 2 ^ 64 ∧
  ∃ bm,
    binary_mandelbrot (T := Q) (E := nat) 0 4 5 = Some bm
    ∧ length bm = Z.to_nat (4 * 4)
    ∧ ∀ x y, 0 ≤ x < 4 → 0 ≤ y < 4 →
        let c := jittered_point (T := Q) (E := nat) 4 x y in
        (∃ j, exits_after (Z.to_nat 5) c j
              ∧ bm !! Z.to_nat (y * 4 + x)
                = Some (norm_below_4 (quadratic_orbit c j)))
        ∧ (bm !! Z.to_nat (y * 4 + x) = Some true
           ↔ never_escapes (Z.to_nat 5) c).
Proof.
  split; [lia|]. split; [lia|].
  apply (binary_mandelbrot_stores_non_escape (T := Q) (E := nat) 0 4 5); lia.
Defined.

(** The bitmap of the 4-by-4 lattice after 5 iterations, with the
    reference engine. *)
Example binary_mandelbrot_4_5 :
  binary_mandelbrot (T := Q) (E := nat) 0 4 5
  = Some [false; false; false; false; false; false; true; false;
          false; true; true; false; false; false; false; false].
Proof. vm_compute. reflexivity. Qed.

(** ** Colormap lookup *)

Section ColormapTheorems.
Context {T : Type} `{Scalar T}.

(** C9. The lookup by name succeeds exactly for the six names of the
    catalog; for every other string it yields the invalid-argument
    exception and no colormap. *)
Theorem by_name_catalog (name : string) :
  (In name catalog ↔ ∃ cm : Colormap T, by_name name = inl cm)
  ∧ (¬ In name catalog ↔
     by_name (T := T) name = inr (invalid_argument "Invalid colormap name")).
Proof.
  unfold by_name, catalog.
  repeat match goal with
         | |- context [String.eqb name ?s] =>
             destruct (String.eqb_spec name s) as [->|?]
         end;
    (split; split; intros Hyp;
     [ try (eexists; reflexivity); simpl in Hyp; intuition congruence
     | try (simpl; tauto); destruct Hyp as [cm Hcm]; discriminate
     | try reflexivity; exfalso; apply Hyp; simpl; tauto
     | try discriminate; simpl; intuition congruence ]).
Qed.
End ColormapTheorems.

Example by_name_mako :
  by_name (T := Q) "mako" = inl {| cmap := mako; vmin := 0%Q; vmax := 1%Q |}.
Proof. reflexivity. Qed.

Example by_name_is_case_sensitive :
  by_name (T := Q) "Mako" = inr (invalid_argument "Invalid colormap name").
Proof. reflexivity. Qed.

(** ** The edge transform *)

Lemma im_edge_length im size : length (im_edge im size) = length im.
Proof. unfold im_edge. rewrite length_fmap, length_seqZ. lia. Qed.

(** What [im_edge] stores at the index [i]: the neighbours are the flat
    indices [i - size], [i - 1], [i + 1], [i + size] inside the vector. *)
Lemma im_edge_lookup im size i :
  0 ≤ i < Z.of_nat (length im) →
  im_edge im size !! Z.to_nat i
  = Some (im_at im i
          && existsb (λ delta, in_bounds im (i + delta) && negb (im_at im (i + delta)))
               [- size; -1; 1; size]).
Proof.
  intros Hi. unfold im_edge. rewrite list_lookup_fmap.
  rewrite lookup_seqZ_lt by lia. simpl. now rewrite Z2Nat.id by lia.
Qed.

Lemma edge_spec_lookup B S i :
  0 ≤ i < Z.of_nat (length B) →
  edge_spec B S !! Z.to_nat i
  = Some (im_at B i && existsb (λ j, negb (im_at B j)) (grid_neighbours S i)).
Proof.
  intros Hi. unfold edge_spec. rewrite list_lookup_fmap.
  rewrite lookup_seqZ_lt by lia. simpl. now rewrite Z2Nat.id by lia.
Qed.

(** Every cell of the result was true in the input. *)
Lemma im_edge_subset im size i :
  im_edge im size !! i = Some true → im !! i = Some true.
Proof.
  intros Hi.
  assert (Hlt : (i < length im)%nat).
  { rewrite <- (im_edge_length im size). now apply lookup_lt_Some in Hi. }
  rewrite <- (Nat2Z.id i) in Hi. rewrite im_edge_lookup in Hi by lia.
  injection Hi as Hi. apply andb_true_iff in Hi as [Hi _].
  unfold im_at, vec_get in Hi. rewrite Nat2Z.id in Hi.
  destruct (Z.leb_spec 0 (Z.of_nat i)); [|lia].
  destruct (im !! i) as [[]|]; simpl in Hi; congruence.
Qed.

(** A neighbour in the grid is one of the four flat neighbours, and it is
    inside the vector: the cells [edge_spec] marks are marked by [im_edge]. *)
Lemma grid_neighbours_flat S i j :
  0 < S → 0 ≤ i < S * S → In j (grid_neighbours S i) →
  In (j - i) [- S; -1; 1; S] ∧ 0 ≤ j < S * S.
Proof.
  intros HS Hi Hj. unfold grid_neighbours in Hj.
  pose proof (Z.div_mod i S ltac:(lia)) as Hdm.
  pose proof (Z.mod_pos_bound i S HS) as Hm.
  assert (Hy : 0 ≤ i / S < S).
  { split; [apply Z.div_pos; lia|apply Z.div_lt_upper_bound; lia]. }
  rewrite !in_app_iff in Hj.
  destruct (Z.ltb_spec 0 (i / S)), (Z.ltb_spec 0 (i mod S)),
    (Z.ltb_spec (i mod S) (S - 1)), (Z.ltb_spec (i / S) (S - 1));
    simpl in Hj; intuition (subst; simpl; try (split; [|nia]);
      first [ left; lia | right; left; lia | right; right; left; lia
            | right; right; right; left; lia | nia ]).
Qed.

Lemma edge_spec_subset_im_edge B S i :
  0 < S → length B = Z.to_nat (S * S) →
  edge_spec B S !! i = Some true → im_edge B S !! i = Some true.
Proof.
  intros HS Hlen Hi.
  assert (Hlt : (i < length B)%nat).
  { apply lookup_lt_Some in Hi. unfold edge_spec in Hi.
    rewrite length_fmap, length_seqZ in Hi. lia. }
  rewrite <- (Nat2Z.id i) in Hi |- *.
  rewrite edge_spec_lookup in Hi by lia. rewrite im_edge_lookup by lia.
  injection Hi as Hi. apply andb_true_iff in Hi as [Hb Hex].
  rewrite Hb, andb_true_l. f_equal.
  apply existsb_exists in Hex as (j & Hj & Hneg).
  apply grid_neighbours_flat in Hj as [Hd Hr]; [|lia..].
  apply existsb_exists. exists (j - Z.of_nat i). split; [exact Hd|].
  replace (Z.of_nat i + (j - Z.of_nat i)) with j by lia.
  rewrite Hneg, andb_true_r. unfold in_bounds.
  apply andb_true_iff. split; [apply Z.leb_le|apply Z.ltb_lt]; lia.
Qed.

(** Away from the first and the last column the two readings agree: the
    flat neighbours inside the vector are the neighbours in the grid. *)
Lemma im_edge_interior_column B S i :
  0 < S → length B = Z.to_nat (S * S) →
  0 ≤ i < S * S → 0 < i mod S < S - 1 →
  im_edge B S !! Z.to_nat i = edge_spec B S !! Z.to_nat i.
Proof.
  intros HS Hlen Hi Hx.
  rewrite im_edge_lookup, edge_spec_lookup by lia. do 2 f_equal.
  pose proof (Z.div_mod i S ltac:(lia)) as Hdm.
  assert (Hy : 0 ≤ i / S < S).
  { split; [apply Z.div_pos; lia|apply Z.div_lt_upper_bound; lia]. }
  unfold grid_neighbours.
  destruct (Z.ltb_spec 0 (i mod S)); [|lia].
  destruct (Z.ltb_spec (i mod S) (S - 1)); [|lia].
  assert (Hup : in_bounds B (i + - S) = (0 <? i / S)).
  { unfold in_bounds. rewrite Hlen, Z2Nat.id by lia.
    destruct (Z.ltb_spec 0 (i / S));
      [apply andb_true_iff; split; [apply Z.leb_le|apply Z.ltb_lt]; nia|].
    apply andb_false_iff. left. apply Z.leb_gt. nia. }
  assert (Hdown : in_bounds B (i + S) = (i / S <? S - 1)).
  { unfold in_bounds. rewrite Hlen, Z2Nat.id by lia.
    destruct (Z.ltb_spec (i / S) (S - 1));
      [apply andb_true_iff; split; [apply Z.leb_le|apply Z.ltb_lt]; nia|].
    apply andb_false_iff. right. apply Z.ltb_ge. nia. }
  assert (Hleft : in_bounds B (i + -1) = true).
  { unfold in_bounds. rewrite Hlen, Z2Nat.id by lia.
    apply andb_true_iff; split; [apply Z.leb_le|apply Z.ltb_lt]; nia. }
  assert (Hright : in_bounds B (i + 1) = true).
  { unfold in_bounds. rewrite Hlen, Z2Nat.id by lia.
    apply andb_true_iff; split; [apply Z.leb_le|apply Z.ltb_lt]; nia. }
  cbn [existsb]. rewrite Hup, Hdown, Hleft, Hright.
  change (i + - S) with (i - S). change (i + -1) with (i - 1).
  destruct (0 <? i / S), (i / S <? S - 1); cbn [app existsb andb];
    now rewrite ?orb_false_r.
Qed.

(** C1. With the 2-by-2 bitmap whose only false cell is (0, 1), the cell
    (1, 0) has both of its neighbours in the grid true, (0, 0) and (1, 1),
    and the specification's edge leaves it false; [im_edge] marks it,
    because its offset [+1] reads the flat index 2, the first cell of the
    next row: with that cell true as well, [im_edge] leaves the cell (1, 0)
    false. *)
Theorem im_edge_wraps_rows :
  edge_spec [true; true; false; true] 2 = [true; false; false; true]
  ∧ im_edge [true; true; false; true] 2 = [true; true; false; true]
  ∧ im_edge [true; true; true; true] 2 = [false; false; false; false].
Proof. repeat split. Qed.

(** ** The aggregator *)

Section AggregatorTheorems.
Context {T : Type}.
Implicit Types (th : BuddhabrotThread T) (threads : list (BuddhabrotThread T)).

Lemma cell_sum_perm threads threads' i :
  threads ≡ₚ threads' → cell_sum threads i = cell_sum threads' i.
Proof.
  induction 1 as [|th l l' _ IH|th1 th2 l|l1 l2 l3 _ IH1 _ IH2]; simpl; lia.
Qed.

Lemma cell_sum_all_zero threads i :
  Forall all_zero threads → cell_sum threads i = 0.
Proof.
  induction 1 as [|th l Hth _ IH]; simpl; [reflexivity|]. rewrite IH.
  destruct (counts th !! i) as [c|] eqn:Hc; simpl; [|reflexivity].
  apply list_elem_of_lookup_2 in Hc.
  unfold all_zero in Hth. rewrite Forall_forall in Hth. rewrite (Hth c Hc). lia.
Qed.

Lemma merge_all_sum S threads result :
  same_dimensions S threads →
  length result = Z.to_nat (wrap64 (S * S)) →
  ∃ r, merge_all result threads = Some r
       ∧ length r = length result
       ∧ ∀ i c, result !! i = Some c → 0 ≤ c < 2 ^ 64 →
           r !! i = Some (wrap64 (c + cell_sum threads i)).
Proof.
  intros Hdim. revert result.
  induction Hdim as [|th l [_ Hth] _ IH]; intros result Hlen; simpl.
  - exists result. repeat split. intros i c Hc Hrange.
    now rewrite Z.add_0_r, wrap64_small.
  - unfold merge_into.
    destruct (Nat.leb_spec (length result) (length (counts th))); [|lia].
    simpl.
    destruct (IH (zip_with (λ cur res, wrap64 (cur + res)) result (counts th)))
      as (r & Hr & Hrlen & Hcells).
    { rewrite length_zip_with_l_eq; lia. }
    exists r. split; [exact Hr|]. split.
    { rewrite Hrlen, length_zip_with_l_eq; lia. }
    intros i c Hc Hrange.
    destruct (lookup_lt_is_Some_2 (counts th) i) as [d Hd].
    { apply lookup_lt_Some in Hc. lia. }
    rewrite (Hcells i (wrap64 (c + d))).
    + rewrite Hd. simpl. rewrite wrap64_add_l. f_equal. f_equal. lia.
    + rewrite lookup_zip_with, Hc. simpl. now rewrite Hd.
    + apply wrap64_range.
Qed.

Lemma merge_results_cells S threads :
  threads ≠ [] → same_dimensions S threads →
  ∃ r, merge_results threads = Some r
       ∧ length r = Z.to_nat (wrap64 (S * S))
       ∧ ∀ i, (i < length r)%nat → r !! i = Some (wrap64 (cell_sum threads i)).
Proof.
  intros Hne Hdim. unfold merge_results.
  destruct threads as [|front rest]; [congruence|]. cbn [head mbind option_bind].
  pose proof (Forall_inv Hdim) as [Hfront _]. rewrite Hfront.
  destruct (merge_all_sum S (front :: rest)
              (replicate (Z.to_nat (wrap64 (S * S))) 0) Hdim)
    as (r & Hr & Hlen & Hcells).
  { apply length_replicate. }
  rewrite length_replicate in Hlen.
  exists r. split; [exact Hr|]. split; [exact Hlen|].
  intros i Hi. rewrite (Hcells i 0); [reflexivity| |lia].
  apply lookup_replicate_2. lia.
Qed.

(** C6. For a non-empty list of workers whose histograms all have the
    dimensions of side length [S], the aggregator returns the histogram of
    the same dimensions whose every cell is the sum, in unsigned 64-bit
    arithmetic, of that cell over the workers, which is the exact sum when
    that fits 64 bits; every permutation of the workers gives the same
    result, and all-zero histograms give the all-zero histogram. *)
Theorem merge_results_elementwise_sum S threads :
  threads ≠ [] → same_dimensions S threads →
  ∃ r, merge_results threads = Some r
       ∧ length r = Z.to_nat (wrap64 (S * S))
       ∧ (∀ i, (i < length r)%nat → r !! i = Some (wrap64 (cell_sum threads i)))
       ∧ (∀ i, (i < length r)%nat → 0 ≤ cell_sum threads i < 2 ^ 64 →
            r !! i = Some (cell_sum threads i))
       ∧ (∀ threads', threads' ≡ₚ threads → merge_results threads' = Some r)
       ∧ (Forall all_zero threads → r = replicate (length r) 0).
Proof.
  intros Hne Hdim.
  destruct (merge_results_cells S threads Hne Hdim) as (r & Hr & Hlen & Hcells).
  exists r. split; [exact Hr|]. split; [exact Hlen|]. split; [exact Hcells|].
  split; [|split].
  - intros i Hi Hfit. rewrite Hcells by exact Hi. now rewrite wrap64_small.
  - intros threads' Hperm.
    destruct (merge_results_cells S threads') as (r' & Hr' & Hlen' & Hcells').
    + intros ->. apply Permutation_nil_l in Hperm. congruence.
    + unfold same_dimensions. now rewrite Hperm.
    + rewrite Hr'. f_equal. apply list_eq. intros i.
      destruct (decide (i < length r)%nat) as [Hi|Hi].
      * rewrite Hcells' by lia. rewrite Hcells by lia.
        now rewrite (cell_sum_perm _ _ i Hperm).
      * rewrite !lookup_ge_None_2 by lia. reflexivity.
  - intros Hzero. apply list_eq. intros i.
    destruct (decide (i < length r)%nat) as [Hi|Hi].
    + rewrite Hcells by lia. rewrite lookup_replicate_2 by lia.
      now rewrite cell_sum_all_zero.
    + rewrite !lookup_ge_None_2; [reflexivity|rewrite length_replicate; lia|lia].
Qed.
End AggregatorTheorems.

(** ** The sampler's histogram updates *)

Lemma bump_in_range i cs :
  0 ≤ i < Z.of_nat (length cs) →
  ∃ c, cs !! Z.to_nat i = Some c ∧ bump i cs = Some (<[Z.to_nat i := incr c]> cs).
Proof.
  intros Hi. destruct (vec_get_in_range cs i Hi) as [c Hc].
  exists c. split; [now apply vec_get_Some in Hc|].
  unfold bump. rewrite Hc. simpl. now apply vec_set_Some.
Qed.

Lemma bump_out_of_range i cs : Z.of_nat (length cs) ≤ i → bump i cs = None.
Proof. intros Hi. unfold bump. now rewrite vec_get_out_of_range. Qed.

Section PlotFacts.
Context {T : Type} `{Scalar T}.

Lemma plot_hits sz cs z :
  plots_inside sz (length cs) z →
  ∃ cs', plot sz cs z = Some cs'
         ∧ length cs' = length cs
         ∧ ∀ j, 0 ≤ j →
             cs' !! Z.to_nat j = Nat.iter (hits sz j z) incr <$> cs !! Z.to_nat j.
Proof.
  intros Hin. unfold plot, hits, plots_inside in *.
  destruct (out_of_view z).
  { exists cs. repeat split. intros j _. now destruct (cs !! Z.to_nat j). }
  destruct Hin as [Ha Hb]; [reflexivity|].
  destruct (bump_in_range _ cs Ha) as (c & Hc & ->). simpl.
  destruct (bump_in_range (mirror_index sz z) (<[Z.to_nat (cell_index sz z) := incr c]> cs))
    as (d & Hd & ->); [now rewrite length_insert|].
  eexists. split; [reflexivity|]. split; [now rewrite !length_insert|].
  intros j Hj. rewrite !list_lookup_insert, length_insert.
  rewrite list_lookup_insert in Hd.
  repeat case_decide; simplify_eq/=;
    try match goal with
        | Heq : Z.to_nat _ = Z.to_nat _ |- _ => apply Z2Nat.inj in Heq; try lia
        end;
    repeat match goal with
        | Hl : ?l !! ?i = Some _ |- context [?l !! ?i] => rewrite Hl
        end;
    simpl; try congruence; try lia;
    try (destruct (cs !! Z.to_nat j); reflexivity).
Qed.
End PlotFacts.

Section PlotAllFacts.
Context {T : Type} `{Scalar T}.

Lemma iter_incr_add a b c :
  Nat.iter b incr (Nat.iter a incr c) = Nat.iter (a + b) incr c.
Proof. rewrite Nat.add_comm. symmetry. apply Nat.iter_add. Qed.

Lemma plot_all_visits sz pts cs :
  Forall (plots_inside sz (length cs)) pts →
  ∃ cs', plot_all sz cs pts = Some cs'
         ∧ length cs' = length cs
         ∧ ∀ j, 0 ≤ j →
             cs' !! Z.to_nat j = Nat.iter (visits sz j pts) incr <$> cs !! Z.to_nat j.
Proof.
  revert cs. induction pts as [|z pts IH]; intros cs Hin; simpl.
  - exists cs. repeat split. intros j _. now destruct (cs !! Z.to_nat j).
  - apply Forall_cons in Hin as [Hz Hpts].
    destruct (plot_hits sz cs z Hz) as (cs1 & -> & Hlen1 & Hcs1). simpl.
    destruct (IH cs1) as (cs' & -> & Hlen' & Hcs'); [now rewrite Hlen1|].
    exists cs'. split; [reflexivity|]. split; [congruence|].
    intros j Hj. rewrite Hcs', Hcs1 by exact Hj.
    destruct (cs !! Z.to_nat j); simpl; [|reflexivity].
    now rewrite iter_incr_add.
Qed.

(** A start point whose orbit does not escape leaves the histogram as it
    is; one whose orbit escapes plots every recorded point. *)
Lemma accumulate_non_escaping (th : BuddhabrotThread T) c :
  non_escaping th c = true → accumulate th c = Some (counts th).
Proof.
  unfold non_escaping, orbit_of, accumulate. intros Hne.
  destruct (orbit _ c czero []) as [z points]. simpl in Hne. now rewrite Hne.
Qed.

Lemma accumulate_escaping (th : BuddhabrotThread T) c :
  non_escaping th c = false →
  accumulate th c = plot_all (size th) (counts th) (snd (orbit_of th c)).
Proof.
  unfold non_escaping, orbit_of, accumulate. intros Hne.
  destruct (orbit _ c czero []) as [z points]. simpl in Hne. now rewrite Hne.
Qed.
End PlotAllFacts.

(** ** Exact arithmetic *)

Lemma Qltb_lt (a b : Q) : Qltb a b = true ↔ (a < b)%Q.
Proof.
  unfold Qltb. rewrite negb_true_iff, <- not_true_iff_false, Qle_bool_iff.
  split; [apply Qnot_le_lt|apply Qlt_not_le].
Qed.

Lemma Qltb_ge (a b : Q) : Qltb a b = false ↔ (b <= a)%Q.
Proof. unfold Qltb. now rewrite negb_false_iff, Qle_bool_iff. Qed.

Lemma Qtrunc_floor (q : Q) : (0 <= q)%Q → Qtrunc q = Qfloor q.
Proof.
  destruct q as [n d]. unfold Qle, Qtrunc, Qfloor. simpl. intros Hn.
  apply Z.quot_div_nonneg; lia.
Qed.

Lemma Qtrunc_range (q : Q) (n : Z) :
  (0 <= q)%Q → (q <= inject_Z n)%Q → 0 ≤ Qtrunc q ≤ n.
Proof.
  intros H0 Hn. rewrite Qtrunc_floor by exact H0. split.
  - change 0 with (Qfloor 0). now apply Qfloor_resp_le.
  - rewrite <- (Qfloor_Z n). now apply Qfloor_resp_le.
Qed.

(** [Qtrunc q] is the integer [k] when [k ≤ q < k + 1] and [k] is not
    negative. *)
Lemma Qtrunc_unique (q : Q) (k : Z) :
  0 ≤ k → (inject_Z k <= q)%Q → (q < inject_Z (k + 1))%Q → Qtrunc q = k.
Proof.
  intros Hk Hlo Hhi.
  assert (H0 : (0 <= q)%Q).
  { apply Qle_trans with (inject_Z k); [|exact Hlo].
    change 0%Q with (inject_Z 0). now rewrite <- Zle_Qle. }
  rewrite Qtrunc_floor by exact H0.
  pose proof (Qfloor_le q) as Hfl. pose proof (Qlt_floor q) as Hfu.
  assert (inject_Z (Qfloor q) < inject_Z (k + 1))%Q as Hlt1
    by (eapply Qle_lt_trans; eassumption).
  assert (inject_Z k < inject_Z (Qfloor q + 1))%Q as Hlt2
    by (eapply Qle_lt_trans; eassumption).
  rewrite <- Zlt_Qlt in Hlt1, Hlt2. lia.
Qed.

Lemma clamp_unit_range (v : Q) : (0 <= clamp v (of_Z 0) (of_Z 1) <= 1)%Q.
Proof.
  unfold clamp, of_Z. simpl.
  destruct (Qltb v (inject_Z 0)) eqn:Hlo; [split; discriminate|].
  destruct (Qltb (inject_Z 1) v) eqn:Hhi; [split; discriminate|].
  apply Qltb_ge in Hlo, Hhi. split; assumption.
Qed.

Lemma remap_range (a b v : Q) (n : Z) :
  0 ≤ n → (0 <= remap a b (of_Z 0) (of_Z n) v <= inject_Z n)%Q.
Proof.
  intros Hn. unfold remap, lerp.
  pose proof (clamp_unit_range (div (sub v a) (sub b a))) as Ht.
  set (t := clamp _ _ _) in *. unfold of_Z. simpl.
  assert (Hq : (0 <= inject_Z n)%Q).
  { change 0%Q with (inject_Z 0). now rewrite <- Zle_Qle. }
  change (inject_Z 0) with 0%Q. split; nra.
Qed.

(** ** Histogram cells in exact arithmetic *)

Lemma cell_x_range sz (z : complex Q) : 1 ≤ sz < 2 ^ 64 → 0 ≤ cell_x sz z ≤ sz - 1.
Proof.
  intros Hsz. unfold cell_x. rewrite wrap64_small by lia.
  apply Qtrunc_range; apply remap_range; lia.
Qed.

Lemma cell_y_range sz (z : complex Q) : 1 ≤ sz < 2 ^ 64 → 0 ≤ cell_y sz z ≤ sz - 1.
Proof.
  intros Hsz. unfold cell_y. rewrite wrap64_small by lia.
  apply Qtrunc_range; apply remap_range; lia.
Qed.

(** The two cells a recorded point increments: column [cell_x], rows
    [cell_y] and [size - 1 - cell_y]. *)
Lemma cell_index_grid sz (z : complex Q) :
  1 ≤ sz → sz * sz < 2 ^ 64 →
  cell_index sz z = cell_y sz z * sz + cell_x sz z
  ∧ mirror_index sz z = (sz - 1 - cell_y sz z) * sz + cell_x sz z
  ∧ 0 ≤ cell_index sz z < sz * sz
  ∧ 0 ≤ mirror_index sz z < sz * sz.
Proof.
  intros H1 Hsq. assert (Hsz : 1 ≤ sz < 2 ^ 64) by nia.
  pose proof (cell_x_range sz z Hsz) as Hx.
  pose proof (cell_y_range sz z Hsz) as Hy.
  unfold cell_index, mirror_index.
  replace (sz - cell_y sz z - 1) with (sz - 1 - cell_y sz z) by lia.
  rewrite !wrap64_small by nia. repeat split; nia.
Qed.

Lemma plots_inside_exact sz (z : complex Q) :
  1 ≤ sz → sz * sz < 2 ^ 64 → plots_inside sz (Z.to_nat (sz * sz)) z.
Proof.
  intros H1 Hsq _. destruct (cell_index_grid sz z H1 Hsq) as (_ & _ & Ha & Hb).
  rewrite Z2Nat.id by lia. split; assumption.
Qed.

(** ** The sampler *)

Section SamplerFacts.
Context {T E : Type} `{Scalar T} `{Engine T E}.

(** The run at the point where the loop body draws its start point. *)
Lemma sample_step_counts k (r : run T E) c e' cs :
  propose (self r) (eng r) = Some (c, e') →
  accumulate (self r) c = Some cs →
  ∃ r', sample_step k r = Some r'
        ∧ counts (self r') = cs
        ∧ eng r' = e'
        ∧ size (self r') = size (self r)
        ∧ max_iter (self r') = max_iter (self r)
        ∧ p_uniform (self r') = p_uniform (self r)
        ∧ good_points (self r') = good_points (self r)
        ∧ point_radius (self r') = point_radius (self r).
Proof.
  intros Hprop Hacc. unfold sample_step.
  destruct (k mod 1000 =? 0).
  - change (propose (self (write_progress (wrap64 (k + 1)) r))
              (eng (write_progress (wrap64 (k + 1)) r)))
      with (propose (self r) (eng r)).
    rewrite Hprop. simpl.
    change (accumulate (set_progress (self r) (wrap64 (k + 1))) c)
      with (accumulate (self r) c).
    rewrite Hacc. simpl. eexists. repeat split.
  - rewrite Hprop. simpl. rewrite Hacc. simpl. eexists. repeat split.
Qed.

Lemma sample_step_propose_None k (r : run T E) :
  propose (self r) (eng r) = None → sample_step k r = None.
Proof.
  intros Hprop. unfold sample_step.
  destruct (k mod 1000 =? 0).
  - change (propose (self (write_progress (wrap64 (k + 1)) r))
              (eng (write_progress (wrap64 (k + 1)) r)))
      with (propose (self r) (eng r)).
    now rewrite Hprop.
  - now rewrite Hprop.
Qed.

(** C5. When the start point sampled by an iteration of [sample] has an
    orbit whose final [|z|²] at the exit of the loop is below 4, the
    iteration completes and the histogram after it is the histogram before
    it: no cell is incremented. *)
Theorem non_escaping_sample_keeps_histogram k (r : run T E) c e' :
  propose (self r) (eng r) = Some (c, e') →
  non_escaping (self r) c = true →
  ∃ r', sample_step k r = Some r' ∧ counts (self r') = counts (self r).
Proof.
  intros Hprop Hne.
  destruct (sample_step_counts k r c e' (counts (self r)) Hprop) as (r' & Hr' & Hcs & _).
  - now apply accumulate_non_escaping.
  - exists r'. split; assumption.
Qed.
End SamplerFacts.

(** A recorded point is plotted when both of its parts lie in [-2, 2]. *)
Lemma out_of_view_exact (z : complex Q) :
  out_of_view z = false ↔ (Qabs (re z) <= 2 ∧ Qabs (im z) <= 2)%Q.
Proof.
  unfold out_of_view. rewrite orb_false_iff. simpl.
  unfold of_Z. simpl. rewrite !Qltb_ge. reflexivity.
Qed.

Section SamplerExact.
Context {E : Type} `{Engine Q E}.

(** C4. When the start point sampled by an iteration of [sample] has an
    escaping orbit, the iteration completes, and every cell of the
    histogram has been incremented once for each recorded point in view
    whose cell it is and once for each recorded point in view whose mirror
    cell it is: a recorded point with real and imaginary parts in [-2, 2],
    column x and row y increments the cell [y * size + x] by one and the
    cell [(size - 1 - y) * size + x] by one, and no other cell. *)
Theorem escaping_visit_increments_cell_and_mirror k (r : run Q E) c e' :
  1 ≤ size (self r) →
  size (self r) * size (self r) < 2 ^ 64 →
  length (counts (self r)) = Z.to_nat (size (self r) * size (self r)) →
  propose (self r) (eng r) = Some (c, e') →
  non_escaping (self r) c = false →
  ∃ r',
    sample_step k r = Some r'
    ∧ length (counts (self r')) = length (counts (self r))
    ∧ (∀ j, 0 ≤ j →
         counts (self r') !! Z.to_nat j
         = Nat.iter (visits (size (self r)) j (snd (orbit_of (self r) c))) incr
             <$> counts (self r) !! Z.to_nat j)
    ∧ (∀ (z : complex Q) j, out_of_view z = false →
         0 ≤ cell_x (size (self r)) z < size (self r)
         ∧ 0 ≤ cell_y (size (self r)) z < size (self r)
         ∧ hits (size (self r)) j z
           = Nat.add
               (if decide (cell_y (size (self r)) z * size (self r)
                           + cell_x (size (self r)) z = j)
                then 1%nat else 0%nat)
               (if decide ((size (self r) - 1 - cell_y (size (self r)) z)
                           * size (self r)
                           + cell_x (size (self r)) z = j)
                then 1%nat else 0%nat)).
Proof.
  intros H1 Hsq Hlen Hprop Hesc.
  destruct (plot_all_visits (size (self r)) (snd (orbit_of (self r) c))
              (counts (self r))) as (cs' & Hcs' & Hlen' & Hcells).
  { rewrite Hlen. apply Forall_forall. intros z _.
    now apply plots_inside_exact. }
  destruct (sample_step_counts k r c e' cs' Hprop) as (r' & Hr' & Hcs & _).
  { now rewrite accumulate_escaping. }
  exists r'. rewrite Hcs. split; [exact Hr'|]. split; [exact Hlen'|].
  split; [exact Hcells|].
  intros z j Hview.
  destruct (cell_index_grid (size (self r)) z H1 Hsq) as (Ha & Hb & _ & _).
  pose proof (cell_x_range (size (self r)) z ltac:(nia)) as Hx.
  pose proof (cell_y_range (size (self r)) z ltac:(nia)) as Hy.
  split; [lia|]. split; [lia|].
  unfold hits. now rewrite Hview, Ha, Hb.
Qed.
End SamplerExact.

(** ** The progress counter *)

Lemma for_loop_inv_Some {St} (I : Z → St → Prop) (body : Z → St → option St) n k s s' :
  for_loop n k body s = Some s' →
  I k s →
  (∀ j t t', k ≤ j < k + Z.of_nat n → I j t → body j t = Some t' → I (j + 1) t') →
  I (k + Z.of_nat n) s'.
Proof.
  revert k s. induction n as [|n IH]; intros k s Hrun Hs Hstep; simpl in Hrun.
  - injection Hrun as <-. now replace (k + Z.of_nat 0) with k by lia.
  - destruct (body k s) as [t|] eqn:Ht; [|discriminate]. simpl in Hrun.
    replace (k + Z.of_nat (S n)) with (k + 1 + Z.of_nat n) by lia.
    apply (IH (k + 1) t Hrun).
    + apply (Hstep k s t); [lia|easy..].
    + intros j u u' Hj. apply Hstep. lia.
Qed.

Lemma stride_writes_0 : stride_writes 0 = [].
Proof. reflexivity. Qed.

Lemma stride_writes_step k :
  0 ≤ k →
  stride_writes (k + 1)
  = stride_writes k ++ (if k mod 1000 =? 0 then [k + 1] else []).
Proof.
  intros Hk. unfold stride_writes.
  destruct (Z.eqb_spec (k mod 1000) 0) as [Hm|Hm].
  - replace ((k + 1 + 999) / 1000) with ((k + 999) / 1000 + 1)
      by (Z.to_euclidean_division_equations; lia).
    rewrite seqZ_app by (Z.to_euclidean_division_equations; lia).
    rewrite fmap_app. f_equal. simpl. f_equal.
    Z.to_euclidean_division_equations; lia.
  - replace ((k + 1 + 999) / 1000) with ((k + 999) / 1000)
      by (Z.to_euclidean_division_equations; lia).
    now rewrite app_nil_r.
Qed.

Lemma stride_writes_lookup k i a :
  0 ≤ k → stride_writes k !! i = Some a → a = 1000 * Z.of_nat i + 1 ∧ a ≤ k.
Proof.
  intros Hk. unfold stride_writes. rewrite list_lookup_fmap.
  destruct (seqZ 0 ((k + 999) / 1000) !! i) as [q|] eqn:Hq; [|discriminate].
  apply lookup_seqZ in Hq as [-> Hlt]. simpl. intros [= <-].
  split; [lia|]. Z.to_euclidean_division_equations; lia.
Qed.

Section ProgressFacts.
Context {T E : Type} `{Scalar T} `{Engine T E} {alloc : Allocator T}.

Lemma sample_step_writes k (r r' : run T E) :
  sample_step k r = Some r' →
  writes r' = writes r ++ (if k mod 1000 =? 0 then [wrap64 (k + 1)] else []).
Proof.
  unfold sample_step. intros Hstep.
  destruct (k mod 1000 =? 0).
  - destruct (propose _ _) as [[c e']|]; [|discriminate]. simpl in Hstep.
    destruct (accumulate _ c); [|discriminate]. now injection Hstep as <-.
  - destruct (propose _ _) as [[c e']|]; [|discriminate]. simpl in Hstep.
    destruct (accumulate _ c); [|discriminate]. injection Hstep as <-.
    simpl. now rewrite app_nil_r.
Qed.

(** C8. In an execution of [sample(n)] that completes, the values written
    to [progress] are [k + 1] for the iterations [k] that are multiples of
    1000, in order, followed by [n]: the sequence never decreases, the
    loop writes once in a thousand iterations, and the last value written,
    which is the counter's value on return, is [n]. *)
Theorem sample_progress_writes (rd : random_device) n (th : BuddhabrotThread T)
    (r : run T E) :
  0 ≤ n < 2 ^ 64 →
  sample rd n th = Some r →
  writes r = stride_writes n ++ [n]
  ∧ (∀ i a, stride_writes n !! i = Some a → a = 1000 * Z.of_nat i + 1)
  ∧ (∀ i j a b, (i ≤ j)%nat →
       writes r !! i = Some a → writes r !! j = Some b → a ≤ b)
  ∧ last (writes r) = Some n
  ∧ progress (self r) = n.
Proof.
  intros Hn Hrun. unfold sample in Hrun.
  destruct (reserve (max_iter th)); [|discriminate].
  destruct (for_range 0 n sample_step _) as [r0|] eqn:Hloop; [|discriminate].
  injection Hrun as <-. unfold for_range in Hloop.
  assert (Hw : writes r0 = stride_writes n).
  { replace n with (0 + Z.of_nat (Z.to_nat (n - 0))) by lia.
    apply (for_loop_inv_Some (λ k r, writes r = stride_writes k) _ _ _ _ _ Hloop).
    - reflexivity.
    - intros k t t' Hk Ht Hstep. apply sample_step_writes in Hstep.
      rewrite Hstep, Ht, stride_writes_step by lia.
      now rewrite wrap64_small by lia. }
  simpl. rewrite Hw. split; [reflexivity|].
  split; [intros i a Ha; now apply stride_writes_lookup in Ha|].
  split; [|split; [apply last_snoc|reflexivity]].
  intros i j a b Hij Ha Hb.
  apply lookup_snoc_Some in Ha as [[Hi Ha]|[Hi <-]];
    apply lookup_snoc_Some in Hb as [[Hj Hb]|[Hj <-]].
  - apply stride_writes_lookup in Ha as [-> _]; [|lia].
    apply stride_writes_lookup in Hb as [-> _]; lia.
  - apply stride_writes_lookup in Ha; lia.
  - lia.
  - lia.
Qed.
End ProgressFacts.

(** ** Proposals and the good-point sequence *)

Lemma stride_engine_lawful : lawful nat.
Proof.
  split.
  - intros e. simpl.
    pose proof (Z.mod_pos_bound (Z.of_nat e) 8 ltac:(lia)) as Hm.
    split.
    + apply Qle_shift_div_l; [reflexivity|].
      rewrite Qmult_0_l. change 0%Q with (inject_Z 0). rewrite <- Zle_Qle. lia.
    + apply Qlt_shift_div_r; [reflexivity|].
      rewrite Qmult_1_l. change 8%Q with (inject_Z 8). rewrite <- Zlt_Qlt. lia.
  - intros lo hi e Hle. simpl.
    pose proof (Z.mod_pos_bound (Z.of_nat e) (hi - lo + 1) ltac:(lia)). lia.
Qed.

Section ProposalFacts.
Context {E : Type} `{Engine Q E} {alloc : Allocator Q}.

(** With no good point, the index distribution ranges over every
    unsigned 64-bit value. *)
Lemma point_idx_dist_empty (th : BuddhabrotThread Q) :
  good_points th = [] →
  point_idx_dist (E := E) th = uniform_int 0 (2 ^ 64 - 1).
Proof. intros Hgp. unfold point_idx_dist. now rewrite Hgp. Qed.

(** A mix probability of at least 1 always takes the uniform branch,
    which does not read the good points. *)
Lemma propose_uniform (th : BuddhabrotThread Q) (e : E) :
  lawful E → (1 <= p_uniform th)%Q →
  ∃ c e', propose th e = Some (c, e').
Proof.
  intros [Hcan _] Hp. unfold propose, bernoulli.
  pose proof (Hcan e) as [_ Hu].
  destruct (canonical e) as [u e1]. simpl in Hu.
  assert (Hb : ltb u (p_uniform th) = true).
  { apply Qltb_lt. eapply Qlt_le_trans; eassumption. }
  rewrite Hb.
  destruct (uniform_real _ _ e1) as [cr e2].
  destruct (uniform_real _ _ e2) as [ci e3]. eauto.
Qed.

(** A mix probability of at most 0 always takes the edge-biased branch;
    with no good point the index it draws is outside the sequence. *)
Lemma propose_biased_empty (th : BuddhabrotThread Q) (e : E) :
  lawful E → (p_uniform th <= 0)%Q → good_points th = [] →
  propose th e = None.
Proof.
  intros [Hcan _] Hp Hgp. unfold propose, bernoulli.
  pose proof (Hcan e) as [Hu _].
  destruct (canonical e) as [u e1]. simpl in Hu.
  assert (Hb : ltb u (p_uniform th) = false).
  { apply Qltb_ge. eapply Qle_trans; eassumption. }
  rewrite Hb. destruct (point_idx_dist th e1) as [idx e2].
  rewrite Hgp. unfold vec_get. now destruct (0 <=? idx).
Qed.

Lemma accumulate_completes (th : BuddhabrotThread Q) c :
  1 ≤ size th → size th * size th < 2 ^ 64 →
  length (counts th) = Z.to_nat (size th * size th) →
  ∃ cs, accumulate th c = Some cs ∧ length cs = length (counts th).
Proof.
  intros H1 Hsq Hlen.
  destruct (non_escaping th c) eqn:Hne.
  - exists (counts th). split; [now apply accumulate_non_escaping|reflexivity].
  - rewrite accumulate_escaping by exact Hne.
    destruct (plot_all_visits (size th) (snd (orbit_of th c)) (counts th))
      as (cs & Hcs & Hl & _).
    + rewrite Hlen. apply Forall_forall. intros z _. now apply plots_inside_exact.
    + exists cs. split; assumption.
Qed.

(** With a mix probability of 1 and the orbit buffer reserved, [sample]
    completes whatever the good points are, also when there is none, and
    returns a histogram of the same dimensions. *)
Lemma sample_uniform_completes (rd : random_device) n (th : BuddhabrotThread Q) :
  lawful E → reserve (max_iter th) = true → (1 <= p_uniform th)%Q →
  1 ≤ size th → size th * size th < 2 ^ 64 →
  length (counts th) = Z.to_nat (size th * size th) →
  0 ≤ n →
  ∃ r : run Q E,
    sample rd n th = Some r
    ∧ length (counts (self r)) = length (counts th)
    ∧ progress (self r) = n.
Proof.
  intros Hlaw Hres Hp H1 Hsq Hlen Hn. unfold sample. rewrite Hres.
  destruct (for_range_inv
              (λ (_ : Z) (r : run Q E),
                 size (self r) = size th
                 ∧ p_uniform (self r) = p_uniform th
                 ∧ length (counts (self r)) = length (counts th))
              sample_step 0 n (Run (seeded rd) th [])) as (r & Hr & _ & _ & Hl).
  - exact Hn.
  - repeat split.
  - intros k t _ (Hsz & Hpu & Hlt).
    destruct (propose_uniform (self t) (eng t) Hlaw) as (c & e' & Hprop).
    { now rewrite Hpu. }
    destruct (accumulate_completes (self t) c) as (cs & Hcs & Hlcs).
    { now rewrite Hsz. } { now rewrite Hsz. } { now rewrite Hsz, Hlt. }
    destruct (sample_step_counts k t c e' cs Hprop Hcs)
      as (t' & Ht' & Hc' & _ & Hs' & _ & Hp' & _).
    exists t'. split; [exact Ht'|]. repeat split; congruence.
  - rewrite Hr. simpl. eexists. split; [reflexivity|]. split; [exact Hl|reflexivity].
Qed.

(** With a mix probability of 0 and no good point, [sample] does not
    complete: once the orbit buffer is reserved, its first iteration reads
    the good points outside their bounds. *)
Lemma sample_biased_empty (rd : random_device) n (th : BuddhabrotThread Q) :
  lawful E → (p_uniform th <= 0)%Q → good_points th = [] → 1 ≤ n →
  sample (E := E) rd n th = None.
Proof.
  intros Hlaw Hp Hgp Hn. unfold sample, for_range.
  destruct (reserve (max_iter th)); [|reflexivity].
  destruct (Z.to_nat (n - 0)) as [|m] eqn:Hm; [lia|]. cbn [for_loop].
  rewrite sample_step_propose_None; [reflexivity|].
  now apply propose_biased_empty.
Qed.
End ProposalFacts.

(** C2. With no good point and the mix probability 0, the first iteration of
    [sample] takes the edge-biased branch, draws an index from the range
    [0, 2^64 - 1] that [good_points.size() - 1] gives the distribution, and
    reads the empty good-point sequence outside its bounds; with the mix
    probability 1 the same worker completes and returns a histogram of 16
    cells. *)
Theorem sample_empty_good_points :
  bernoulli (p_uniform (worker 4 0 [])) (seeded (E := nat) 0) = (false, 1%nat)
  ∧ point_idx_dist (worker 4 0 []) 1%nat = uniform_int 0 (2 ^ 64 - 1) 1%nat
  ∧ point_idx_dist (worker 4 0 []) 1%nat = (1, 2%nat)
  ∧ vec_get (good_points (worker 4 0 [])) 1 = None
  ∧ propose (worker 4 0 []) (seeded (E := nat) 0) = None
  ∧ sample (E := nat) 0 1 (worker 4 0 []) = None
  ∧ (∃ r, sample (E := nat) 0 1 (worker 4 1 []) = Some r
          ∧ length (counts (self r)) = 16%nat).
Proof.
  repeat split. eexists. split; [vm_compute; reflexivity|reflexivity].
Qed.

(** ** The collection of good points *)

Section CollectFacts.
Context {T : Type} `{Scalar T}.

Lemma collect_cell_sound im size y x points :
  size * size < 2 ^ 64 → length im = Z.to_nat (size * size) →
  0 ≤ x < size → 0 ≤ y < size →
  collected_from im size points →
  ∃ points',
    collect_cell im size (lattice_coord size y) y x points = Some points'
    ∧ collected_from im size points'.
Proof.
  intros Hsq Hlen Hx Hy Hpts. unfold collect_cell.
  pose proof (flat_index_lt size x y Hx Hy) as Hk.
  rewrite wrap64_small by lia.
  destruct (vec_get_in_range im (y * size + x)) as [b Hb]; [lia|].
  rewrite Hb. simpl. eexists. split; [reflexivity|].
  apply vec_get_Some in Hb as [_ Hb].
  destruct b; [|exact Hpts].
  intros p Hp. apply in_app_iff in Hp as [Hp|[<-|[]]]; [now apply Hpts|].
  exists x, y. repeat split; try lia. exact Hb.
Qed.

Lemma im_collect_points_sound im size :
  0 ≤ size → size * size < 2 ^ 64 → length im = Z.to_nat (size * size) →
  ∃ points, im_collect_points im size = Some points
            ∧ collected_from im size points.
Proof.
  intros H0 Hsq Hlen. unfold im_collect_points.
  apply (for_range_inv (λ _, collected_from im size)); [exact H0|intros p []|].
  intros y pts Hy Hpts. unfold collect_row.
  apply (for_range_inv (λ _, collected_from im size)); [exact H0|exact Hpts|].
  intros x pts' Hx Hpts'. now apply collect_cell_sound.
Qed.
End CollectFacts.

(** The histogram index of a lattice coordinate, in exact arithmetic: the
    sampler's remap onto [0, size - 1] sends the coordinate of the lattice
    index [k] to [k - k / size], which truncates to [k - 1] unless [k] is 0.
    This is a fact of the rational scalars only: a floating-point type
    rounds every operation, and its result need not be this index. *)
Lemma lattice_coord_back size k :
  1 ≤ size < 2 ^ 64 → 0 ≤ k < size →
  Qtrunc (remap (of_Z (-2)) (of_Z 2) (of_Z 0) (of_Z (wrap64 (size - 1)))
            (lattice_coord size k))
  = Z.max 0 (k - 1).
Proof.
  intros Hsize Hk. rewrite wrap64_small by lia.
  unfold remap, lattice_coord, lerp, of_Z. simpl.
  set (s := inject_Z size). set (a := inject_Z k).
  assert (Hs : (1 <= s)%Q).
  { unfold s. change 1%Q with (inject_Z 1). rewrite <- Zle_Qle. lia. }
  assert (Ha0 : (0 <= a)%Q).
  { unfold a. change 0%Q with (inject_Z 0). rewrite <- Zle_Qle. lia. }
  assert (Ha1 : (a + 1 <= s)%Q).
  { unfold a, s. change 1%Q with (inject_Z 1).
    rewrite <- inject_Z_plus, <- Zle_Qle. lia. }
  assert (Hs1 : (inject_Z (size - 1) == s - 1)%Q).
  { unfold s, Z.sub. rewrite inject_Z_plus. reflexivity. }
  assert (Hk1 : (inject_Z (k - 1) == a - 1)%Q).
  { unfold a, Z.sub. rewrite inject_Z_plus. reflexivity. }
  assert (Hk2 : (inject_Z (k - 1 + 1) == a)%Q).
  { unfold a. now replace (k - 1 + 1) with k by lia. }
  set (t := ((inject_Z (-2) + a / s * (inject_Z 2 - inject_Z (-2)) - inject_Z (-2))
             / (inject_Z 2 - inject_Z (-2)))%Q).
  assert (Ht : (t == a / s)%Q).
  { unfold t. change (inject_Z 2) with 2%Q. change (inject_Z (-2)) with (-2)%Q.
    field. lra. }
  assert (Hts : (t * s == a)%Q).
  { rewrite Ht. field. lra. }
  assert (Ht0 : (0 <= t)%Q).
  { rewrite Ht. apply Qle_shift_div_l; lra. }
  assert (Ht1 : (t <= 1)%Q).
  { rewrite Ht. apply Qle_shift_div_r; lra. }
  unfold clamp. simpl. fold t.
  change (inject_Z 0) with 0%Q. change (inject_Z 1) with 1%Q.
  destruct (Qltb t 0) eqn:Hlo; [apply Qltb_lt in Hlo; lra|].
  destruct (Qltb 1 t) eqn:Hhi; [apply Qltb_lt in Hhi; lra|].
  assert (Hval : (0 + t * (inject_Z (size - 1) - 0) == a - t)%Q).
  { rewrite Hs1, <- Hts. ring. }
  destruct (Z.eq_dec k 0) as [Hz|Hne].
  - assert (Ha : (a == 0)%Q) by (unfold a; now rewrite Hz).
    rewrite Z.max_l by lia.
    apply Qtrunc_unique; [lia| |]; rewrite Hval;
      change (inject_Z 0) with 0%Q; change (inject_Z (0 + 1)) with 1%Q; nra.
  - assert (Ha2 : (1 <= a)%Q).
    { unfold a. change 1%Q with (inject_Z 1). rewrite <- Zle_Qle. lia. }
    rewrite Z.max_r by lia.
    apply Qtrunc_unique; [lia| |]; rewrite Hval.
    + rewrite Hk1. lra.
    + rewrite Hk2. nra.
Qed.

(** C3, as stated. In the 2-by-2 bitmap whose only true cell is (1, 1), the
    collected point is (0, 0); the sampler's remap onto [0, 1] sends it to
    1/2 on both axes, which truncates to the cell (0, 0), and that cell is
    false. Every value of this computation is exact in binary floating
    point as well. *)
Lemma collected_point_lands_on_false_cell :
  im_collect_points (T := Q) [false; false; false; true] 2
  = Some [(lattice_coord 2 1, lattice_coord 2 1)]
  ∧ cell_x 2 (Complex (lattice_coord (T := Q) 2 1) (lattice_coord 2 1)) = 0
  ∧ cell_y 2 (Complex (lattice_coord (T := Q) 2 1) (lattice_coord 2 1)) = 0
  ∧ vec_get [false; false; false; true]
      (cell_index 2 (Complex (lattice_coord (T := Q) 2 1) (lattice_coord 2 1)))
    = Some false.
Proof. repeat split. Qed.

Section CollectedPoints.
Context {T : Type} `{Scalar T}.

(** C3, amended. For every bitmap of side length [size] and every point
    (cr, ci) returned by the collection of good points, there is a cell
    (x, y) of the grid that is true in the bitmap and of which the point is
    the pair of lattice coordinates: cr is the image of x, and ci the image
    of y, under the linear map of [0, size) onto [-2, 2], computed in the
    scalar type of the code. Nothing is said of the cell that the sampler's
    remap onto [0, size - 1] sends the point to: it need not be a true
    cell. *)
Theorem collected_point_of_true_cell im size :
  0 ≤ size → size * size < 2 ^ 64 → length im = Z.to_nat (size * size) →
  ∃ points,
    im_collect_points (T := T) im size = Some points
    ∧ ∀ cr ci, In (cr, ci) points →
        ∃ x y, 0 ≤ x < size ∧ 0 ≤ y < size
               ∧ im !! Z.to_nat (y * size + x) = Some true
               ∧ cr = lerp (of_Z (-2)) (of_Z 2) (div (of_Z x) (of_Z size))
               ∧ ci = lerp (of_Z (-2)) (of_Z 2) (div (of_Z y) (of_Z size)).
Proof.
  intros Hs0 Hsq Hlen.
  destruct (im_collect_points_sound (T := T) im size Hs0 Hsq Hlen)
    as (points & Hpts & Hfrom).
  exists points. split; [exact Hpts|].
  intros cr ci Hin. destruct (Hfrom _ Hin) as (x & y & Hx & Hy & Him & Heq).
  unfold lattice_coord in Heq. inversion Heq; subst.
  exists x, y. repeat split; try lia. exact Him.
Qed.
End CollectedPoints.

Lemma collected_point_of_true_cell_witness :
  0 ≤ 2 ∧ 2 * 2 < 2 ^ 64
  ∧ length [false; true; false; true] = Z.to_nat (2 * 2)
  ∧ ∃ points,
      im_collect_points (T := Q) [false; true; false; true] 2 = Some points
      ∧ ∀ cr ci, In (cr, ci) points →
          ∃ x y, 0 ≤ x < 2 ∧ 0 ≤ y < 2
                 ∧ [false; true; false; true] !! Z.to_nat (y * 2 + x) = Some true
                 ∧ cr = lerp (of_Z (-2)) (of_Z 2) (div (of_Z x) (of_Z 2))
                 ∧ ci = lerp (of_Z (-2)) (of_Z 2) (div (of_Z y) (of_Z 2)).
Proof.
  split; [lia|]. split; [lia|]. split; [reflexivity|].
  apply (collected_point_of_true_cell (T := Q) [false; true; false; true] 2);
    [lia|lia|reflexivity].
Defined.

(** ** Concrete runs *)

Lemma non_escaping_sample_keeps_histogram_witness :
  propose (self (Run 3%nat (worker 4 1 []) [])) (eng (Run 3%nat (worker 4 1 []) []))
  = Some (Complex (0 # 8)%Q (4 # 8)%Q, 6%nat)
  ∧ non_escaping (self (Run 3%nat (worker 4 1 []) [])) (Complex (0 # 8) (4 # 8))%Q = true
  ∧ ∃ r', sample_step 0 (Run 3%nat (worker 4 1 []) []) = Some r'
          ∧ counts (self r') = counts (self (Run 3%nat (worker 4 1 []) [])).
Proof.
  split; [reflexivity|]. split; [reflexivity|].
  apply (non_escaping_sample_keeps_histogram 0 (Run 3%nat (worker 4 1 []) [])
           (Complex (0 # 8) (4 # 8))%Q 6%nat); reflexivity.
Defined.

Lemma escaping_visit_increments_cell_and_mirror_witness :
  ∃ r',
    sample_step 0 (Run 0%nat (worker 4 1 []) []) = Some r'
    ∧ length (counts (self r')) = 16%nat
    ∧ counts (self r') !! Z.to_nat 0 = Some 1
    ∧ counts (self r') !! Z.to_nat 12 = Some 1.
Proof.
  destruct (escaping_visit_increments_cell_and_mirror 0
              (Run 0%nat (worker 4 1 []) [])
              (Complex (-12 # 8) (-8 # 8))%Q 3%nat)
    as (r' & Hr' & Hlen & Hcells & _);
    [simpl; lia|simpl; lia|reflexivity|reflexivity|reflexivity|].
  exists r'. split; [exact Hr'|]. split; [exact Hlen|].
  split; [exact (Hcells 0 ltac:(lia))|exact (Hcells 12 ltac:(lia))].
Defined.

(** The first iteration of a fresh 4-by-4 worker: the start point
    (-3/2, -1) escapes after three steps; its first two orbit points are in
    view and increment the cells 0 and 1 of the first row and their mirror
    cells 12 and 13 of the last row. *)
Example first_sample_step :
  (r ← sample_step 0 (Run 0%nat (worker 4 1 []) []); Some (counts (self r)))
  = Some [1; 1; 0; 0; 0; 0; 0; 0; 0; 0; 0; 0; 1; 1; 0; 0].
Proof. reflexivity. Qed.

(** With an odd side length the middle row is its own mirror: the point
    3/2 of the escaping orbit of the start point 3/2 has the column 1 and
    the row 1 of the 3-by-3 histogram, and both increments go to the cell 4. *)
Example middle_row_receives_both_increments :
  accumulate (worker 3 1 []) (Complex (3 # 2) 0)%Q
  = Some [0; 0; 0; 0; 2; 0; 0; 0; 0].
Proof. reflexivity. Qed.

Lemma merge_results_elementwise_sum_witness :
  [set_counts (worker 2 1 []) [1; 2; 3; 4];
   set_counts (worker 2 1 []) [10; 20; 30; 40]] ≠ []
  ∧ same_dimensions 2
      [set_counts (worker 2 1 []) [1; 2; 3; 4];
       set_counts (worker 2 1 []) [10; 20; 30; 40]]
  ∧ ∃ r,
      merge_results [set_counts (worker 2 1 []) [1; 2; 3; 4];
                     set_counts (worker 2 1 []) [10; 20; 30; 40]] = Some r
      ∧ length r = 4%nat.
Proof.
  split; [discriminate|]. split; [repeat constructor|].
  destruct (merge_results_elementwise_sum 2
              [set_counts (worker 2 1 []) [1; 2; 3; 4];
               set_counts (worker 2 1 []) [10; 20; 30; 40]])
    as (r & Hr & Hlen & _); [discriminate|repeat constructor|].
  exists r. split; [exact Hr|exact Hlen].
Defined.

Example merge_results_two_workers :
  merge_results [set_counts (worker 2 1 []) [1; 2; 3; 4];
                 set_counts (worker 2 1 []) [10; 20; 30; 40]]
  = Some [11; 22; 33; 44].
Proof. reflexivity. Qed.

(** [threads.front()] of an empty vector, and a worker whose histogram is
    shorter than the result, are undefined. *)
Example merge_results_undefined :
  merge_results (T := Q) [] = None
  ∧ merge_results [set_counts (worker 2 1 []) [1; 2; 3]] = None.
Proof. split; reflexivity. Qed.

Lemma sample_progress_writes_witness :
  0 ≤ 1500 < 2 ^ 64
  ∧ sample (E := nat) 0 1500 (worker 4 1 [])
    = Some (Run 4500%nat
              (set_progress
                 (set_counts (worker 4 1 [])
                    [563; 375; 188; 0; 188; 563; 187; 0;
                     188; 563; 187; 0; 563; 375; 188; 0]) 1500)
              [1; 1001; 1500])
  ∧ [1; 1001; 1500] = stride_writes 1500 ++ [1500].
Proof.
  assert (Hrun : sample (E := nat) 0 1500 (worker 4 1 [])
                 = Some (Run 4500%nat
                           (set_progress
                              (set_counts (worker 4 1 [])
                                 [563; 375; 188; 0; 188; 563; 187; 0;
                                  188; 563; 187; 0; 563; 375; 188; 0]) 1500)
                           [1; 1001; 1500])).
  { vm_compute. reflexivity. }
  split; [lia|]. split; [exact Hrun|].
  exact (proj1 (sample_progress_writes 0 1500 (worker 4 1 []) _ ltac:(lia) Hrun)).
Defined.

(** Unlike the rasterizer, the sampler seeds its engine from the random
    device: two devices give two histograms. *)
Example sample_depends_on_random_device :
  (r ← sample (E := nat) 0 1 (worker 4 1 []); Some (counts (self r)))
  ≠ (r ← sample (E := nat) 5 1 (worker 4 1 []); Some (counts (self r))).
Proof. vm_compute. discriminate. Qed.

(** * Further properties of the bitmap transforms *)

Lemma in_bounds_spec im j :
  in_bounds im j = true ↔ 0 ≤ j < Z.of_nat (length im).
Proof. unfold in_bounds. rewrite andb_true_iff, Z.leb_le, Z.ltb_lt. tauto. Qed.

Lemma im_at_lookup im (j : nat) b : im !! j = Some b → im_at im (Z.of_nat j) = b.
Proof.
  intros Hj. unfold im_at, vec_get.
  destruct (Z.leb_spec 0 (Z.of_nat j)); [|lia]. now rewrite Nat2Z.id, Hj.
Qed.

Lemma im_at_true im j :
  im_at im j = true ↔ 0 ≤ j ∧ im !! Z.to_nat j = Some true.
Proof.
  unfold im_at, vec_get. destruct (Z.leb_spec 0 j).
  - destruct (im !! Z.to_nat j) as [[]|]; simpl; intuition congruence.
  - simpl. intuition (discriminate || lia).
Qed.

Lemma im_at_invert im j :
  in_bounds im j = true → im_at (im_invert im) j = negb (im_at im j).
Proof.
  intros Hj. apply in_bounds_spec in Hj. unfold im_at, vec_get, im_invert.
  destruct (Z.leb_spec 0 j); [|lia]. rewrite list_lookup_fmap.
  destruct (lookup_lt_is_Some_2 im (Z.to_nat j)) as [b ->]; [lia|]. reflexivity.
Qed.

Lemma in_bounds_invert im j : in_bounds (im_invert im) j = in_bounds im j.
Proof. unfold in_bounds, im_invert. now rewrite length_fmap. Qed.

Lemma im_dilate_length im size : length (im_dilate im size) = length im.
Proof. unfold im_dilate. rewrite length_fmap, length_seqZ. lia. Qed.

Lemma im_dilate_lookup im size i :
  0 ≤ i < Z.of_nat (length im) →
  im_dilate im size !! Z.to_nat i
  = Some (existsb (λ delta, in_bounds im (i + delta) && im_at im (i + delta))
            [- size; -1; 0; 1; size]).
Proof.
  intros Hi. unfold im_dilate. rewrite list_lookup_fmap.
  rewrite lookup_seqZ_lt by lia. simpl. now rewrite Z2Nat.id by lia.
Qed.

(** X1. Inverting a bitmap twice gives the bitmap back. *)
Theorem im_invert_involutive im : im_invert (im_invert im) = im.
Proof.
  unfold im_invert. rewrite <- list_fmap_compose.
  rewrite <- (list_fmap_id im) at 2. apply list_fmap_ext.
  intros i b _. apply negb_involutive.
Qed.

(** X2. The edge of a bitmap keeps the bitmap's length and marks only cells
    that are true in it. *)
Theorem im_edge_within im size :
  length (im_edge im size) = length im
  ∧ ∀ i, im_edge im size !! i = Some true → im !! i = Some true.
Proof.
  split; [apply im_edge_length|].
  intros i Hi.
  assert (Hlt : (i < length im)%nat).
  { rewrite <- (im_edge_length im size). now apply lookup_lt_Some in Hi. }
  rewrite <- (Nat2Z.id i) in Hi. rewrite im_edge_lookup in Hi by lia.
  injection Hi as Hi. apply andb_true_iff in Hi as [Hi _].
  apply im_at_true in Hi as [_ Hi]. now rewrite Nat2Z.id in Hi.
Qed.

(** X3. A bitmap whose cells all hold the same value, all true or all false,
    has an empty edge. *)
Theorem im_edge_uniform im size b :
  (∀ i c, im !! i = Some c → c = b) →
  ∀ i, (i < length im)%nat → im_edge im size !! i = Some false.
Proof.
  intros Huni i Hi. rewrite <- (Nat2Z.id i). rewrite im_edge_lookup by lia.
  f_equal. destruct b.
  - apply andb_false_iff. right.
    apply not_true_iff_false. intros Hex.
    apply existsb_exists in Hex as (delta & _ & Hd).
    apply andb_true_iff in Hd as [Hin Hneg]. apply in_bounds_spec in Hin.
    destruct (lookup_lt_is_Some_2 im (Z.to_nat (Z.of_nat i + delta))) as [c Hc]; [lia|].
    pose proof (Huni _ _ Hc) as ->.
    rewrite <- (Z2Nat.id (Z.of_nat i + delta)) in Hneg by lia.
    rewrite (im_at_lookup _ _ _ Hc) in Hneg. discriminate.
  - apply andb_false_iff. left.
    destruct (lookup_lt_is_Some_2 im i Hi) as [c Hc].
    pose proof (Huni _ _ Hc) as ->. now apply im_at_lookup.
Qed.

(** X5. Dilation keeps the length and every true cell of its input. *)
Theorem im_dilate_extensive im size :
  length (im_dilate im size) = length im
  ∧ ∀ i, im !! i = Some true → im_dilate im size !! i = Some true.
Proof.
  split; [apply im_dilate_length|].
  intros i Hi. pose proof (lookup_lt_Some _ _ _ Hi) as Hlt.
  rewrite <- (Nat2Z.id i). rewrite im_dilate_lookup by lia. f_equal.
  apply existsb_exists. exists 0. split; [simpl; tauto|].
  rewrite Z.add_0_r. apply andb_true_iff. split.
  - apply in_bounds_spec. lia.
  - now apply im_at_lookup.
Qed.

(** X6. Dilation marks the cell [i] exactly when some true cell [j] of the
    input lies at the flat distance 0, 1 or [size] from it; a cell at the
    end of a row therefore takes the first cell of the next row for a
    neighbour. *)
Theorem im_dilate_true_iff im size (i : nat) :
  im_dilate im size !! i = Some true
  ↔ (i < length im)%nat
    ∧ ∃ j : nat, im !! j = Some true
                 ∧ In (Z.of_nat j - Z.of_nat i) [- size; -1; 0; 1; size].
Proof.
  split.
  - intros Hi.
    assert (Hlt : (i < length im)%nat).
    { rewrite <- (im_dilate_length im size). now apply lookup_lt_Some in Hi. }
    split; [exact Hlt|].
    rewrite <- (Nat2Z.id i) in Hi. rewrite im_dilate_lookup in Hi by lia.
    apply (inj Some) in Hi. apply existsb_exists in Hi as (delta & Hd & Hj).
    apply andb_true_iff in Hj as [Hin Hat]. apply in_bounds_spec in Hin.
    apply im_at_true in Hat as [_ Hat].
    exists (Z.to_nat (Z.of_nat i + delta)). split; [exact Hat|].
    now replace (Z.of_nat (Z.to_nat (Z.of_nat i + delta)) - Z.of_nat i)
      with delta by lia.
  - intros (Hlt & j & Hj & Hd).
    rewrite <- (Nat2Z.id i). rewrite im_dilate_lookup by lia. f_equal.
    apply existsb_exists. exists (Z.of_nat j - Z.of_nat i). split; [exact Hd|].
    replace (Z.of_nat i + (Z.of_nat j - Z.of_nat i)) with (Z.of_nat j) by lia.
    apply andb_true_iff. split.
    + apply in_bounds_spec. apply lookup_lt_Some in Hj. lia.
    + now apply im_at_lookup.
Qed.

(** X7. Dilation is monotone: a bitmap with more true cells has a dilation with
    more true cells. *)
Theorem im_dilate_monotone im1 im2 size :
  length im1 = length im2 →
  (∀ j, im1 !! j = Some true → im2 !! j = Some true) →
  ∀ i, im_dilate im1 size !! i = Some true → im_dilate im2 size !! i = Some true.
Proof.
  intros Hlen Hsub i Hi.
  assert (Hlt : (i < length im1)%nat).
  { rewrite <- (im_dilate_length im1 size). now apply lookup_lt_Some in Hi. }
  rewrite <- (Nat2Z.id i) in Hi |- *.
  rewrite im_dilate_lookup in Hi by lia. rewrite im_dilate_lookup by lia.
  apply (inj Some) in Hi. f_equal.
  apply existsb_exists in Hi as (delta & Hd & Hj).
  apply existsb_exists. exists delta. split; [exact Hd|].
  apply andb_true_iff in Hj as [Hin Hat]. apply andb_true_iff. split.
  - apply in_bounds_spec. apply in_bounds_spec in Hin. lia.
  - apply im_at_true. apply im_at_true in Hat as [H0 Hat]. split; [exact H0|].
    now apply Hsub.
Qed.

(** X4. The edge is the bitmap cut with the dilation of its complement. *)
Theorem im_edge_as_dilation im size :
  im_edge im size = zip_with andb im (im_dilate (im_invert im) size).
Proof.
  apply list_eq. intros i.
  destruct (decide (i < length im)%nat) as [Hi|Hi].
  - rewrite <- (Nat2Z.id i). rewrite im_edge_lookup by lia.
    rewrite lookup_zip_with.
    destruct (lookup_lt_is_Some_2 im (Z.to_nat (Z.of_nat i))) as [b Hb]; [lia|].
    rewrite Hb. simpl.
    rewrite im_dilate_lookup by (unfold im_invert; rewrite length_fmap; lia).
    simpl. f_equal. rewrite Nat2Z.id in Hb. rewrite (im_at_lookup _ _ _ Hb).
    destruct b; [|reflexivity]. rewrite !andb_true_l.
    rewrite !in_bounds_invert, Z.add_0_r.
    assert (H0 : in_bounds im (Z.of_nat i) = true) by (apply in_bounds_spec; lia).
    rewrite (im_at_invert im (Z.of_nat i) H0), (im_at_lookup _ _ _ Hb).
    rewrite andb_false_r, orb_false_l.
    repeat match goal with
           | |- context [in_bounds im ?j && im_at (im_invert im) ?j] =>
               replace (in_bounds im j && im_at (im_invert im) j)
                 with (in_bounds im j && negb (im_at im j))
                 by (destruct (in_bounds im j) eqn:Hin;
                     [now rewrite im_at_invert|reflexivity])
           end.
    reflexivity.
  - rewrite !lookup_ge_None_2; [reflexivity| |].
    + rewrite length_zip_with. lia.
    + rewrite im_edge_length. lia.
Qed.

(** X8. [im_or] is defined when the second bitmap is at least as long as the
    first; the result has the length of the first bitmap and holds the
    disjunction cell by cell. A shorter second bitmap is read past its end. *)
Theorem im_or_cells im1 im2 :
  (im_or im1 im2 = None ↔ (length im2 < length im1)%nat)
  ∧ ∀ r, im_or im1 im2 = Some r →
      length r = length im1
      ∧ ∀ i a, im1 !! i = Some a →
          ∃ b, im2 !! i = Some b ∧ r !! i = Some (a || b).
Proof.
  unfold im_or. destruct (Nat.leb_spec (length im1) (length im2)) as [Hle|Hlt].
  - split; [split; [discriminate|lia]|].
    intros r [= <-]. split; [rewrite length_zip_with; lia|].
    intros i a Ha. pose proof (lookup_lt_Some _ _ _ Ha) as Hi.
    destruct (lookup_lt_is_Some_2 im2 i) as [b Hb]; [lia|].
    exists b. split; [exact Hb|]. rewrite lookup_zip_with, Ha. simpl. now rewrite Hb.
  - split; [split; [intros _; exact Hlt|reflexivity]|]. discriminate.
Qed.

(** X9. On bitmaps of the same length [im_or] is commutative. *)
Theorem im_or_comm im1 im2 :
  length im1 = length im2 → im_or im1 im2 = im_or im2 im1.
Proof.
  intros Hlen. unfold im_or. rewrite Hlen, Nat.leb_refl. f_equal.
  apply list_eq. intros i. rewrite !lookup_zip_with.
  destruct (im1 !! i), (im2 !! i); simpl; try reflexivity.
  now rewrite orb_comm.
Qed.

Lemma im_or_comm_witness :
  length [true; false] = length [false; false]
  ∧ im_or [true; false] [false; false] = im_or [false; false] [true; false].
Proof. split; [reflexivity|]. apply (im_or_comm [true; false] [false; false]). reflexivity. Defined.

(** ** Failing loops *)

(** A counting loop whose steps succeed up to the iteration [j], which
    fails, fails. *)
Lemma for_loop_fails {St} (I : Z → St → Prop) (body : Z → St → option St) n k s j :
  k ≤ j < k + Z.of_nat n →
  I k s →
  (∀ i t, k ≤ i < j → I i t → ∃ t', body i t = Some t' ∧ I (i + 1) t') →
  (∀ t, I j t → body j t = None) →
  for_loop n k body s = None.
Proof.
  revert k s. induction n as [|n IH]; intros k s Hj Hs Hstep Hfail; [lia|].
  simpl. destruct (decide (k = j)) as [->|Hne].
  - now rewrite Hfail.
  - destruct (Hstep k s) as (t & -> & Ht); [lia|exact Hs|]. simpl.
    apply IH; [lia|exact Ht| |exact Hfail].
    intros i u Hi. apply Hstep. lia.
Qed.

Lemma for_range_fails {St} (I : Z → St → Prop) (body : Z → St → option St) lo hi s j :
  lo ≤ j < hi →
  I lo s →
  (∀ i t, lo ≤ i < j → I i t → ∃ t', body i t = Some t' ∧ I (i + 1) t') →
  (∀ t, I j t → body j t = None) →
  for_range lo hi body s = None.
Proof.
  intros Hj Hs Hstep Hfail. unfold for_range.
  apply (for_loop_fails I body _ lo s j); [lia|assumption..].
Qed.

(** ** The collection of good points, cell by cell *)

Lemma flat_index_div_mod size x y :
  0 ≤ x < size → (y * size + x) mod size = x ∧ (y * size + x) / size = y.
Proof.
  intros Hx. split.
  - rewrite Z.add_comm, Z.mod_add by lia. apply Z.mod_small. lia.
  - rewrite Z.add_comm, Z.div_add by lia. rewrite Z.div_small by lia. lia.
Qed.

Lemma true_cells_snoc im k :
  0 ≤ k →
  filter (λ j, im_at im j = true) (seqZ 0 (k + 1))
  = filter (λ j, im_at im j = true) (seqZ 0 k)
    ++ (if im_at im k then [k] else []).
Proof.
  intros Hk. rewrite seqZ_app by lia. rewrite filter_app. f_equal.
  change (seqZ (0 + k) 1) with [0 + k]. rewrite Z.add_0_l.
  destruct (im_at im k) eqn:Hat.
  - now rewrite filter_cons_True.
  - rewrite filter_cons_False; [reflexivity|congruence].
Qed.

Section CollectCells.
Context {T : Type} `{Scalar T}.

Lemma collect_cell_exact im size y x :
  size * size < 2 ^ 64 → size * size ≤ Z.of_nat (length im) →
  0 ≤ x < size → 0 ≤ y < size →
  collect_cell im size (lattice_coord size y) y x
    (cell_point size <$> filter (λ j, im_at im j = true) (seqZ 0 (y * size + x)))
  = Some (cell_point size
            <$> filter (λ j, im_at im j = true) (seqZ 0 (y * size + (x + 1)))).
Proof.
  intros Hsq Hlen Hx Hy. unfold collect_cell.
  pose proof (flat_index_lt size x y Hx Hy) as Hk.
  rewrite wrap64_small by lia.
  destruct (vec_get_in_range im (y * size + x)) as [b Hb]; [lia|].
  rewrite Hb. simpl. f_equal.
  replace (y * size + (x + 1)) with (y * size + x + 1) by lia.
  rewrite true_cells_snoc by lia. rewrite fmap_app.
  assert (Hat : im_at im (y * size + x) = b) by (unfold im_at; now rewrite Hb).
  rewrite Hat. destruct b; [|now rewrite app_nil_r].
  f_equal. simpl. unfold cell_point.
  now destruct (flat_index_div_mod size x y Hx) as [-> ->].
Qed.

Lemma im_collect_points_exact im size :
  0 ≤ size → size * size < 2 ^ 64 → size * size ≤ Z.of_nat (length im) →
  im_collect_points im size = Some (cell_point size <$> true_cells im size).
Proof.
  intros H0 Hsq Hlen. unfold im_collect_points, true_cells.
  destruct (for_range_inv
              (λ y pts, pts = cell_point size
                 <$> filter (λ j, im_at im j = true) (seqZ 0 (y * size)))
              (collect_row im size) 0 size []) as (pts & -> & ->).
  - exact H0.
  - reflexivity.
  - intros y pts Hy ->. unfold collect_row.
    destruct (for_range_inv
                (λ x pts, pts = cell_point size
                   <$> filter (λ j, im_at im j = true) (seqZ 0 (y * size + x)))
                (collect_cell im size (lattice_coord size y) y) 0 size
                (cell_point size
                   <$> filter (λ j, im_at im j = true) (seqZ 0 (y * size))))
      as (pts' & Hrun & ->).
    + exact H0.
    + now rewrite Z.add_0_r.
    + intros x pts' Hx ->. eexists. split; [|reflexivity].
      now apply collect_cell_exact.
    + exists (cell_point size
                <$> filter (λ j, im_at im j = true) (seqZ 0 (y * size + size))).
      split; [exact Hrun|]. now replace ((y + 1) * size) with (y * size + size) by lia.
  - reflexivity.
Qed.

Lemma im_collect_points_short im size :
  0 ≤ size → size * size < 2 ^ 64 → Z.of_nat (length im) < size * size →
  im_collect_points im size = None.
Proof.
  intros H0 Hsq Hlen. unfold im_collect_points.
  set (L := Z.of_nat (length im)) in *.
  assert (Hpos : 0 < size) by nia.
  pose proof (Z.div_mod L size ltac:(lia)) as Hdm.
  pose proof (Z.mod_pos_bound L size Hpos) as Hm.
  assert (Hy : 0 ≤ L / size < size).
  { split; [apply Z.div_pos; lia|apply Z.div_lt_upper_bound; lia]. }
  apply (for_range_fails (λ _ _, True) _ 0 size [] (L / size)); [lia|exact I| |].
  - intros y pts Hyr _. unfold collect_row.
    destruct (for_range_inv (λ _ _, True)
                (collect_cell im size (lattice_coord size y) y) 0 size pts)
      as (pts' & Hrun & _); [exact H0|exact I| |eauto].
    intros x t Hx _. unfold collect_cell. rewrite wrap64_small by nia.
    destruct (vec_get_in_range im (y * size + x)) as [b ->]; [fold L; nia|].
    simpl. eauto.
  - intros pts _. unfold collect_row.
    apply (for_range_fails (λ _ _, True) _ 0 size pts (L mod size)); [lia|exact I| |].
    + intros x t Hx _. unfold collect_cell. rewrite wrap64_small by nia.
      destruct (vec_get_in_range im (L / size * size + x)) as [b ->]; [fold L; nia|].
      simpl. eauto.
    + intros t _. unfold collect_cell. rewrite wrap64_small by nia.
      rewrite vec_get_out_of_range; [reflexivity|]. fold L. nia.
Qed.

(** X10. The collection reads the [size * size] cells of the grid: it is
    undefined exactly when the bitmap is shorter, and otherwise returns,
    in row-major order, the lattice coordinates of the true cells, one point
    for each. *)
Theorem im_collect_points_cells im size :
  0 ≤ size → size * size < 2 ^ 64 →
  (im_collect_points (T := T) im size = None ↔ Z.of_nat (length im) < size * size)
  ∧ (size * size ≤ Z.of_nat (length im) →
     im_collect_points im size = Some (cell_point size <$> true_cells im size)).
Proof.
  intros H0 Hsq. split; [split|].
  - intros Hnone. destruct (Z.lt_ge_cases (Z.of_nat (length im)) (size * size)) as [Hlt|Hge];
      [exact Hlt|].
    rewrite im_collect_points_exact in Hnone by assumption. discriminate.
  - now apply im_collect_points_short.
  - now apply im_collect_points_exact.
Qed.
End CollectCells.

Lemma im_collect_points_cells_witness :
  0 ≤ 2 ∧ 2 * 2 < 2 ^ 64
  ∧ (im_collect_points (T := Q) [false; true; true] 2 = None
     ↔ Z.of_nat (length [false; true; true]) < 2 * 2)
  ∧ (2 * 2 ≤ Z.of_nat (length [false; true; true]) →
     im_collect_points [false; true; true] 2
     = Some (cell_point (T := Q) 2 <$> true_cells [false; true; true] 2)).
Proof.
  split; [lia|]. split; [lia|].
  apply (im_collect_points_cells (T := Q) [false; true; true] 2); lia.
Defined.

(** ** The selection of good points *)

Lemma zip_with_orb_true_l (a b : list bool) k :
  length a = length b → a !! k = Some true → zip_with orb a b !! k = Some true.
Proof.
  intros Hlen Ha. rewrite lookup_zip_with, Ha. simpl.
  destruct (lookup_lt_is_Some_2 b k) as [c ->]; [|reflexivity].
  apply lookup_lt_Some in Ha. lia.
Qed.

Lemma zip_with_orb_true_r (a b : list bool) k :
  length a = length b → b !! k = Some true → zip_with orb a b !! k = Some true.
Proof.
  intros Hlen Hb. rewrite lookup_zip_with, Hb.
  destruct (lookup_lt_is_Some_2 a k) as [c ->]; [|simpl; now rewrite orb_true_r].
  apply lookup_lt_Some in Hb. lia.
Qed.

Section GoodPointFacts.
Context {T E : Type} `{Scalar T} `{Engine T E}.

Lemma binary_mandelbrot_length (rd : random_device) size max_iter :
  0 ≤ size → size * size < 2 ^ 64 →
  ∃ bm, binary_mandelbrot (E := E) rd size max_iter = Some bm
        ∧ length bm = Z.to_nat (size * size).
Proof.
  intros Hpos Hsz. unfold binary_mandelbrot.
  destruct (for_range_inv (λ y, raster_inv size max_iter (y * size))
              (raster_row size max_iter (div (of_Z 4) (of_Z size))) 0 size
              (default_engine, replicate (Z.to_nat (wrap64 (size * size))) false))
    as (st & Hst & _ & Hlen & _).
  - exact Hpos.
  - rewrite wrap64_small by nia. repeat split; simpl.
    + now rewrite length_replicate.
    + intros x y Hx Hy Hlt. nia.
    + intros j Hj. apply lookup_replicate_2. lia.
  - intros y t Hy Ht. now apply raster_row_inv.
  - rewrite Hst. simpl. eauto.
Qed.

(** The rounds of dilation keep the two bitmaps at their length and never
    clear a cell of the result. *)
Lemma dilation_rounds_grow size n (im result : list bool) :
  0 ≤ n → length result = length im →
  ∃ st, for_range 0 n (dilation_round size) (im, result) = Some st
        ∧ length (snd st) = length im
        ∧ ∀ k, result !! k = Some true → snd st !! k = Some true.
Proof.
  intros Hn Hlen.
  destruct (for_range_inv
              (λ (_ : Z) (st : list bool * list bool),
                 length (fst st) = length im
                 ∧ length (snd st) = length im
                 ∧ ∀ k, result !! k = Some true → snd st !! k = Some true)
              (dilation_round size) 0 n (im, result)) as (st & Hst & _ & Hl & Hk).
  - exact Hn.
  - repeat split; [exact Hlen|tauto].
  - intros j [im' result'] _ (Hl1 & Hl2 & Hk). simpl in Hl1, Hl2, Hk.
    unfold dilation_round, im_or.
    assert (Hle : length result'
                  = length (im_edge (im_invert (im_dilate im' size)) size)).
    { rewrite im_edge_length. unfold im_invert. rewrite length_fmap, im_dilate_length.
      congruence. }
    rewrite Hle, Nat.leb_refl. simpl. eexists. split; [reflexivity|]. simpl.
    split; [now rewrite im_dilate_length|].
    split; [rewrite length_zip_with; lia|].
    intros k Hr. apply zip_with_orb_true_l; [exact Hle|]. now apply Hk.
  - exists st. repeat split; assumption.
Qed.

(** X11. The selection completes for every lattice and every number of rounds.
    Each good point is the pair of lattice coordinates of a cell of the
    grid, and both edges of the rasterized bitmap, the inner one and that
    of its complement, are among the good points whatever the number of
    rounds. *)
Theorem find_good_points_cover_edges (rd : random_device) size max_iter n_dilations :
  0 ≤ size → size * size < 2 ^ 64 → 0 ≤ n_dilations →
  ∃ bm points,
    binary_mandelbrot (E := E) rd size max_iter = Some bm
    ∧ find_good_points (E := E) rd size max_iter n_dilations = Some points
    ∧ (∀ p, In p points →
         ∃ x y, 0 ≤ x < size ∧ 0 ≤ y < size
                ∧ p = (lattice_coord size x, lattice_coord size y))
    ∧ (∀ k : nat,
         im_edge bm size !! k = Some true
         ∨ im_edge (im_invert bm) size !! k = Some true →
         In (cell_point size (Z.of_nat k)) points).
Proof.
  intros Hs0 Hsq Hn.
  destruct (binary_mandelbrot_length rd size max_iter Hs0 Hsq) as (bm & Hbm & Hlen).
  exists bm. unfold find_good_points. rewrite Hbm. simpl.
  assert (Hle : length (im_edge bm size) = length (im_edge (im_invert bm) size)).
  { rewrite !im_edge_length. unfold im_invert. now rewrite length_fmap. }
  unfold im_or at 1. rewrite Hle, Nat.leb_refl. simpl.
  set (base := zip_with orb (im_edge bm size) (im_edge (im_invert bm) size)).
  assert (Hbase : length base = length bm).
  { unfold base. rewrite length_zip_with, <- Hle, im_edge_length. lia. }
  destruct (dilation_rounds_grow size n_dilations bm base Hn Hbase)
    as (st & -> & Hl & Hk). simpl.
  rewrite im_collect_points_exact by (rewrite ?Hl, ?Hlen; lia).
  eexists. split; [reflexivity|]. split; [reflexivity|]. split.
  - intros p Hp. apply list_elem_of_In, list_elem_of_fmap in Hp as (k & -> & Hk').
    unfold true_cells in Hk'. apply list_elem_of_filter in Hk' as [_ Hk'].
    apply elem_of_seqZ in Hk'.
    assert (Hpos : 0 < size) by nia.
    pose proof (Z.mod_pos_bound k size Hpos).
    exists (k mod size), (k / size). split; [lia|]. split; [|reflexivity].
    split; [apply Z.div_pos; lia|apply Z.div_lt_upper_bound; lia].
  - intros k Hedge. apply list_elem_of_In, list_elem_of_fmap.
    exists (Z.of_nat k). split; [reflexivity|].
    assert (Hb : base !! k = Some true).
    { destruct Hedge as [He|He];
        [now apply zip_with_orb_true_l|now apply zip_with_orb_true_r]. }
    pose proof (lookup_lt_Some _ _ _ Hb) as Hlt.
    unfold true_cells. apply list_elem_of_filter. split.
    + apply im_at_lookup. now apply Hk.
    + apply elem_of_seqZ. lia.
Qed.
End GoodPointFacts.

Lemma find_good_points_cover_edges_witness :
  0 ≤ 4 ∧ 4 * 4 < 2 ^ 64 ∧ 0 ≤ 2
  ∧ ∃ bm points,
      binary_mandelbrot (T := Q) (E := nat) 0 4 5 = Some bm
      ∧ find_good_points (T := Q) (E := nat) 0 4 5 2 = Some points
      ∧ (∀ p, In p points →
           ∃ x y, 0 ≤ x < 4 ∧ 0 ≤ y < 4
                  ∧ p = (lattice_coord 4 x, lattice_coord 4 y))
      ∧ (∀ k : nat,
           im_edge bm 4 !! k = Some true
           ∨ im_edge (im_invert bm) 4 !! k = Some true →
           In (cell_point 4 (Z.of_nat k)) points).
Proof.
  split; [lia|]. split; [lia|]. split; [lia|].
  apply (find_good_points_cover_edges (T := Q) (E := nat) 0 4 5 2); lia.
Defined.

(** * Further properties of the sampler *)

Section OrbitFacts.
Context {T : Type} `{Scalar T}.

Lemma orbit_acc fuel c z (acc : list (complex T)) :
  orbit fuel c z acc
  = (fst (orbit fuel c z []), acc ++ snd (orbit fuel c z [])).
Proof.
  revert z acc. induction fuel as [|fuel IH]; intros z acc; simpl.
  - now rewrite app_nil_r.
  - destruct (ltb (norm z) (of_Z 8)); [|now rewrite app_nil_r].
    rewrite (IH _ (acc ++ _)), (IH _ [_]). simpl. now rewrite <- app_assoc.
Qed.

Lemma orbit_step fuel c (z : complex T) :
  orbit (S fuel) c z []
  = if ltb (norm z) (of_Z 8)
    then (fst (orbit fuel c (cadd (cmul z z) c) []),
          cadd (cmul z z) c :: snd (orbit fuel c (cadd (cmul z z) c) []))
    else (z, []).
Proof.
  simpl. destruct (ltb (norm z) (of_Z 8)); [|reflexivity].
  now rewrite orbit_acc.
Qed.

(** X14. The sampler's loop ends where the escape loop with the bound 8 ends;
    it records at most [fuel] points, and the value it ends with is the
    last recorded point, or the start value when it recorded none. *)
Theorem orbit_records_final fuel c (z : complex T) :
  fst (orbit fuel c z []) = iterate_while fuel (of_Z 8) c z
  ∧ (length (snd (orbit fuel c z [])) ≤ fuel)%nat
  ∧ fst (orbit fuel c z []) = default z (last (snd (orbit fuel c z []))).
Proof.
  revert z. induction fuel as [|fuel IH]; intros z.
  { split; [reflexivity|]. split; [simpl; lia|reflexivity]. }
  rewrite orbit_step. simpl iterate_while.
  destruct (ltb (norm z) (of_Z 8)).
  - destruct (IH (cadd (cmul z z) c)) as (Hf & Hl & Hlast). cbn [fst snd].
    split; [exact Hf|]. split; [simpl; lia|].
    rewrite last_cons, Hlast.
    now destruct (last (snd (orbit fuel c (cadd (cmul z z) c) []))).
  - split; [reflexivity|]. split; [simpl; lia|reflexivity].
Qed.

(** X15. The recorded points are the successive values of z ← z² + c: the first
    comes from the start value, each next one from the one before it, and
    every value the loop iterated from had [|z|² < 8]. *)
Theorem orbit_records_chain fuel c (z : complex T) :
  (∀ w, snd (orbit fuel c z []) !! 0%nat = Some w →
     w = cadd (cmul z z) c ∧ ltb (norm z) (of_Z 8) = true)
  ∧ ∀ i w w', snd (orbit fuel c z []) !! i = Some w →
      snd (orbit fuel c z []) !! S i = Some w' →
      w' = cadd (cmul w w) c ∧ ltb (norm w) (of_Z 8) = true.
Proof.
  revert z. induction fuel as [|fuel IH]; intros z; [split; simpl; intros; discriminate|].
  rewrite orbit_step.
  destruct (ltb (norm z) (of_Z 8)) eqn:Hz; [|split; simpl; intros; discriminate].
  destruct (IH (cadd (cmul z z) c)) as [Hhead Hchain]. cbn [snd]. split.
  - intros w [= <-]. split; reflexivity.
  - intros [|i] w w' Hw Hw'; simpl in Hw, Hw'.
    + injection Hw as <-. now apply Hhead.
    + now apply (Hchain i).
Qed.
End OrbitFacts.

(** ** Histogram totals *)

Lemma total_insert cs (i : nat) c v :
  cs !! i = Some c → total (<[i := v]> cs) = total cs - c + v.
Proof.
  revert i. induction cs as [|a cs IH]; intros [|i] Hi; simpl in *; try discriminate.
  - injection Hi as ->. lia.
  - rewrite (IH i Hi). lia.
Qed.

Lemma wrap64_eq_mod a b : wrap64 a = wrap64 b ↔ (a - b) mod 2 ^ 64 = 0.
Proof.
  unfold wrap64. split; intros Heq.
  - rewrite Zminus_mod, Heq, Z.sub_diag. reflexivity.
  - apply Z.mod_divide in Heq as [q Hq]; [|lia].
    replace a with (b + q * 2 ^ 64) by lia. now rewrite Z.mod_add by lia.
Qed.

Lemma bump_total i cs cs' :
  bump i cs = Some cs' →
  length cs' = length cs ∧ wrap64 (total cs') = wrap64 (total cs + 1).
Proof.
  unfold bump. intros Hb.
  destruct (vec_get cs i) as [c|] eqn:Hc; [|discriminate]. simpl in Hb.
  apply vec_get_Some in Hc as [Hi Hc]. pose proof (lookup_lt_Some _ _ _ Hc).
  rewrite vec_set_Some in Hb by lia. injection Hb as <-.
  split; [apply length_insert|].
  rewrite (total_insert _ _ _ _ Hc). apply wrap64_eq_mod.
  replace (total cs - c + wrap64 (c + 1) - (total cs + 1))
    with (wrap64 (c + 1) - (c + 1)) by lia.
  apply wrap64_eq_mod. unfold wrap64. now rewrite Z.mod_mod by lia.
Qed.

Lemma wrap64_add_cong a b k : wrap64 a = wrap64 b → wrap64 (a + k) = wrap64 (b + k).
Proof.
  unfold wrap64. intros Heq.
  rewrite (Zplus_mod a k), (Zplus_mod b k). now rewrite Heq.
Qed.

Section TotalFacts.
Context {T : Type} `{Scalar T}.

Lemma plot_total sz cs (z : complex T) cs' :
  plot sz cs z = Some cs' →
  length cs' = length cs
  ∧ wrap64 (total cs') = wrap64 (total cs + (if out_of_view z then 0 else 2)).
Proof.
  unfold plot. destruct (out_of_view z).
  - intros [= <-]. now rewrite Z.add_0_r.
  - intros Hp. destruct (bump (cell_index sz z) cs) as [cs1|] eqn:H1; [|discriminate].
    simpl in Hp. apply bump_total in H1 as [Hl1 Ht1].
    apply bump_total in Hp as [Hl2 Ht2]. split; [congruence|].
    rewrite Ht2. replace (total cs + 2) with (total cs + 1 + 1) by lia.
    now apply wrap64_add_cong.
Qed.

Lemma plot_all_total sz (points : list (complex T)) cs cs' :
  plot_all sz cs points = Some cs' →
  length cs' = length cs
  ∧ wrap64 (total cs') = wrap64 (total cs + 2 * in_view_count points).
Proof.
  revert cs. induction points as [|z points IH]; intros cs; simpl.
  - intros [= <-]. unfold in_view_count. simpl. now rewrite Z.add_0_r.
  - intros Hp. destruct (plot sz cs z) as [cs1|] eqn:H1; [|discriminate].
    simpl in Hp. apply plot_total in H1 as [Hl1 Ht1].
    apply IH in Hp as [Hl2 Ht2]. split; [congruence|].
    rewrite Ht2. unfold in_view_count in *. rewrite filter_cons.
    destruct (out_of_view z) eqn:Hz.
    + rewrite decide_False by discriminate.
      rewrite Z.add_0_r in Ht1. now apply wrap64_add_cong.
    + rewrite decide_True by reflexivity. simpl length.
      replace (total cs + 2 * Z.of_nat (S (length (filter (λ z, out_of_view z = false) points))))
        with (total cs + 2 + 2 * Z.of_nat (length (filter (λ z, out_of_view z = false) points)))
        by lia.
      now apply wrap64_add_cong.
Qed.

Lemma accumulate_length (th : BuddhabrotThread T) c cs' :
  accumulate th c = Some cs' → length cs' = length (counts th).
Proof.
  intros Hacc. destruct (non_escaping th c) eqn:Hne.
  - rewrite accumulate_non_escaping in Hacc by exact Hne. now injection Hacc as <-.
  - rewrite accumulate_escaping in Hacc by exact Hne.
    now apply plot_all_total in Hacc as [Hl _].
Qed.

(** X17. One start point keeps the length of the histogram and adds to its
    total, modulo 2^64, nothing when the orbit does not escape and
    otherwise two for every recorded point in view. *)
Theorem accumulate_total (th : BuddhabrotThread T) c cs' :
  accumulate th c = Some cs' →
  length cs' = length (counts th)
  ∧ wrap64 (total cs')
    = wrap64 (total (counts th)
              + (if non_escaping th c then 0
                 else 2 * in_view_count (snd (orbit_of th c)))).
Proof.
  intros Hacc. destruct (non_escaping th c) eqn:Hne.
  - rewrite accumulate_non_escaping in Hacc by exact Hne.
    injection Hacc as <-. now rewrite Z.add_0_r.
  - rewrite accumulate_escaping in Hacc by exact Hne.
    now apply plot_all_total in Hacc.
Qed.
End TotalFacts.

Lemma accumulate_total_witness :
  accumulate (worker 4 1 []) (Complex (-12 # 8) (-8 # 8))%Q
  = Some [1; 1; 0; 0; 0; 0; 0; 0; 0; 0; 0; 0; 1; 1; 0; 0]
  ∧ wrap64 (total [1; 1; 0; 0; 0; 0; 0; 0; 0; 0; 0; 0; 1; 1; 0; 0])
    = wrap64 (total (counts (worker 4 1 []))
              + (if non_escaping (worker 4 1 []) (Complex (-12 # 8) (-8 # 8))%Q
                 then 0
                 else 2 * in_view_count
                            (snd (orbit_of (worker 4 1 [])
                                    (Complex (-12 # 8) (-8 # 8))%Q)))).
Proof.
  split; [reflexivity|].
  apply (accumulate_total (worker 4 1 []) (Complex (-12 # 8) (-8 # 8))%Q
           [1; 1; 0; 0; 0; 0; 0; 0; 0; 0; 0; 0; 1; 1; 0; 0]).
  reflexivity.
Defined.

Section SampleInvariants.
Context {T E : Type} `{Scalar T} `{Engine T E} {alloc : Allocator T}.

(** What a completed iteration of the loop did. *)
Lemma sample_step_Some k (r r' : run T E) :
  sample_step k r = Some r' →
  ∃ c,
    propose (self r) (eng r) = Some (c, eng r')
    ∧ accumulate (self r) c = Some (counts (self r'))
    ∧ size (self r') = size (self r)
    ∧ max_iter (self r') = max_iter (self r)
    ∧ p_uniform (self r') = p_uniform (self r)
    ∧ good_points (self r') = good_points (self r)
    ∧ point_radius (self r') = point_radius (self r).
Proof.
  unfold sample_step. intros Hstep.
  destruct (k mod 1000 =? 0).
  - change (propose (self (write_progress (wrap64 (k + 1)) r))
              (eng (write_progress (wrap64 (k + 1)) r)))
      with (propose (self r) (eng r)) in Hstep.
    destruct (propose (self r) (eng r)) as [[c e']|]; [|discriminate].
    simpl in Hstep.
    change (accumulate (set_progress (self r) (wrap64 (k + 1))) c)
      with (accumulate (self r) c) in Hstep.
    destruct (accumulate (self r) c) as [cs|] eqn:Hacc; [|discriminate].
    injection Hstep as <-. exists c. rewrite Hacc. repeat split.
  - destruct (propose (self r) (eng r)) as [[c e']|]; [|discriminate].
    simpl in Hstep.
    destruct (accumulate (self r) c) as [cs|] eqn:Hacc; [|discriminate].
    injection Hstep as <-. exists c. rewrite Hacc. repeat split.
Qed.

(** X18. A completed [sample] leaves the worker's configuration as it was and
    the histogram at its length: only counts and the progress counter
    change. *)
Theorem sample_keeps_configuration (rd : random_device) n (th : BuddhabrotThread T)
    (r : run T E) :
  sample rd n th = Some r →
  size (self r) = size th
  ∧ max_iter (self r) = max_iter th
  ∧ p_uniform (self r) = p_uniform th
  ∧ good_points (self r) = good_points th
  ∧ point_radius (self r) = point_radius th
  ∧ length (counts (self r)) = length (counts th).
Proof.
  unfold sample. intros Hrun.
  destruct (reserve (max_iter th)); [|discriminate].
  destruct (for_range 0 n sample_step _) as [r0|] eqn:Hloop; [|discriminate].
  injection Hrun as <-. unfold for_range in Hloop. cbn [write_progress self set_progress
    size max_iter p_uniform good_points point_radius counts].
  apply (for_loop_inv_Some
           (λ (_ : Z) (t : run T E),
              size (self t) = size th
              ∧ max_iter (self t) = max_iter th
              ∧ p_uniform (self t) = p_uniform th
              ∧ good_points (self t) = good_points th
              ∧ point_radius (self t) = point_radius th
              ∧ length (counts (self t)) = length (counts th))
           _ _ _ _ _ Hloop).
  - repeat split.
  - intros k t t' _ (H1 & H2 & H3 & H4 & H5 & H6) Hstep.
    apply sample_step_Some in Hstep as (c & _ & Hacc & -> & -> & -> & -> & ->).
    apply accumulate_length in Hacc.
    repeat split; congruence.
Qed.
End SampleInvariants.

Lemma sample_keeps_configuration_witness :
  ∃ r, sample (E := nat) 0 3 (worker 4 1 [(0, 0)%Q]) = Some r
       ∧ size (self r) = 4
       ∧ good_points (self r) = [(0, 0)%Q]
       ∧ length (counts (self r)) = 16%nat.
Proof.
  destruct (sample (E := nat) 0 3 (worker 4 1 [(0, 0)%Q])) as [r|] eqn:Hrun;
    [|vm_compute in Hrun; discriminate].
  exists r. split; [reflexivity|].
  destruct (sample_keeps_configuration 0 3 (worker 4 1 [(0, 0)%Q]) r Hrun)
    as (H1 & _ & _ & H4 & _ & H6).
  split; [exact H1|]. split; [exact H4|exact H6].
Defined.

(** ** Mirror symmetry of the histogram *)

Lemma mirror_cell_grid sz x y :
  0 ≤ x < sz → mirror_cell sz (y * sz + x) = (sz - 1 - y) * sz + x.
Proof.
  intros Hx. unfold mirror_cell.
  now destruct (flat_index_div_mod sz x y Hx) as [-> ->].
Qed.

Lemma mirror_cell_involutive sz j :
  0 < sz → 0 ≤ j < sz * sz →
  0 ≤ mirror_cell sz j < sz * sz ∧ mirror_cell sz (mirror_cell sz j) = j.
Proof.
  intros Hsz Hj.
  pose proof (Z.div_mod j sz ltac:(lia)) as Hdm.
  pose proof (Z.mod_pos_bound j sz Hsz) as Hm.
  assert (Hy : 0 ≤ j / sz < sz).
  { split; [apply Z.div_pos; lia|apply Z.div_lt_upper_bound; lia]. }
  split; [unfold mirror_cell; nia|].
  change (mirror_cell sz j) with ((sz - 1 - j / sz) * sz + j mod sz).
  rewrite mirror_cell_grid by lia. lia.
Qed.

Lemma hits_mirror sz j (z : complex Q) :
  1 ≤ sz → sz * sz < 2 ^ 64 → 0 ≤ j < sz * sz →
  hits sz (mirror_cell sz j) z = hits sz j z.
Proof.
  intros H1 Hsq Hj. unfold hits. destruct (out_of_view z); [reflexivity|].
  destruct (cell_index_grid sz z H1 Hsq) as (Ha & Hb & Hra & Hrb).
  pose proof (cell_x_range sz z ltac:(nia)) as Hx.
  pose proof (cell_y_range sz z ltac:(nia)) as Hy.
  destruct (mirror_cell_involutive sz j ltac:(lia) Hj) as [Hmr Hmm].
  assert (Hma : mirror_cell sz (cell_index sz z) = mirror_index sz z).
  { rewrite Ha, Hb. apply mirror_cell_grid. lia. }
  assert (Hmb : mirror_cell sz (mirror_index sz z) = cell_index sz z).
  { rewrite Ha, Hb, mirror_cell_grid by lia. lia. }
  repeat case_decide; try reflexivity; exfalso; congruence.
Qed.

Lemma visits_mirror sz j (points : list (complex Q)) :
  1 ≤ sz → sz * sz < 2 ^ 64 → 0 ≤ j < sz * sz →
  visits sz (mirror_cell sz j) points = visits sz j points.
Proof.
  intros H1 Hsq Hj. induction points as [|z points IH]; simpl; [reflexivity|].
  now rewrite IH, hits_mirror.
Qed.

Lemma accumulate_keeps_mirror_symmetry (th : BuddhabrotThread Q) c cs' :
  1 ≤ size th → size th * size th < 2 ^ 64 →
  length (counts th) = Z.to_nat (size th * size th) →
  mirror_symmetric (size th) (counts th) →
  accumulate th c = Some cs' →
  mirror_symmetric (size th) cs'.
Proof.
  intros H1 Hsq Hlen Hsym Hacc.
  destruct (non_escaping th c) eqn:Hne.
  - rewrite accumulate_non_escaping in Hacc by exact Hne. now injection Hacc as <-.
  - rewrite accumulate_escaping in Hacc by exact Hne.
    destruct (plot_all_visits (size th) (snd (orbit_of th c)) (counts th))
      as (cs & Hcs & _ & Hcells).
    { rewrite Hlen. apply Forall_forall. intros z _. now apply plots_inside_exact. }
    rewrite Hcs in Hacc. injection Hacc as <-.
    intros j Hj.
    destruct (mirror_cell_involutive (size th) j ltac:(lia) Hj) as [Hmr _].
    rewrite !Hcells by lia. rewrite visits_mirror by assumption.
    now rewrite (Hsym j Hj).
Qed.

Lemma mirror_symmetric_zero sz :
  0 < sz → mirror_symmetric sz (replicate (Z.to_nat (sz * sz)) 0).
Proof.
  intros Hsz j Hj.
  destruct (mirror_cell_involutive sz j Hsz Hj) as [Hmr _].
  rewrite !lookup_replicate_2 by lia. reflexivity.
Qed.

Section MirrorSymmetry.
Context {E : Type} `{Engine Q E} {alloc : Allocator Q}.

(** X19. A completed [sample] keeps the histogram symmetric about the
    horizontal axis: when every cell holds the count of its mirror cell
    before, every cell does after. *)
Theorem sample_keeps_mirror_symmetry (rd : random_device) n (th : BuddhabrotThread Q)
    (r : run Q E) :
  1 ≤ size th → size th * size th < 2 ^ 64 →
  length (counts th) = Z.to_nat (size th * size th) →
  mirror_symmetric (size th) (counts th) →
  sample rd n th = Some r →
  mirror_symmetric (size th) (counts (self r)).
Proof.
  intros H1 Hsq Hlen Hsym Hrun. unfold sample in Hrun.
  destruct (reserve (max_iter th)); [|discriminate].
  destruct (for_range 0 n sample_step _) as [r0|] eqn:Hloop; [|discriminate].
  injection Hrun as <-. unfold for_range in Hloop.
  change (counts (self (write_progress n r0))) with (counts (self r0)).
  apply (for_loop_inv_Some
           (λ (_ : Z) (t : run Q E),
              size (self t) = size th
              ∧ length (counts (self t)) = length (counts th)
              ∧ mirror_symmetric (size th) (counts (self t)))
           _ _ _ _ _ Hloop).
  - repeat split. exact Hsym.
  - intros k t t' _ (Hs & Hl & Hm) Hstep.
    apply sample_step_Some in Hstep as (c & _ & Hacc & Hs' & _).
    split; [congruence|]. split.
    + apply accumulate_length in Hacc. congruence.
    + rewrite <- Hs. apply (accumulate_keeps_mirror_symmetry (self t) c);
        rewrite ?Hs, ?Hl; assumption.
Qed.
End MirrorSymmetry.

Lemma sample_keeps_mirror_symmetry_witness :
  1 ≤ size (worker 4 1 []) ∧ size (worker 4 1 []) * size (worker 4 1 []) < 2 ^ 64
  ∧ length (counts (worker 4 1 [])) = Z.to_nat (size (worker 4 1 []) * size (worker 4 1 []))
  ∧ mirror_symmetric (size (worker 4 1 [])) (counts (worker 4 1 []))
  ∧ ∃ r, sample (E := nat) 0 3 (worker 4 1 []) = Some r
         ∧ mirror_symmetric 4 (counts (self r)).
Proof.
  split; [simpl; lia|]. split; [simpl; lia|]. split; [reflexivity|].
  split; [apply (mirror_symmetric_zero 4); lia|].
  destruct (sample (E := nat) 0 3 (worker 4 1 [])) as [r|] eqn:Hrun;
    [|vm_compute in Hrun; discriminate].
  exists r. split; [reflexivity|].
  apply (sample_keeps_mirror_symmetry 0 3 (worker 4 1 []) r);
    [simpl; lia|simpl; lia|reflexivity|apply (mirror_symmetric_zero 4); lia|exact Hrun].
Defined.

(** ** Start points *)

Section StartPoints.
Context {E : Type} `{Engine Q E} {alloc : Allocator Q}.

Lemma domain_bounds : (of_Z (-2) <= of_Z 2)%Q ∧ (of_Z (T := Q) (-2) < of_Z 2)%Q.
Proof. split; [discriminate|reflexivity]. Qed.

Lemma uniform_real_range (a b : Q) (e : E) :
  lawful E → (a <= b)%Q →
  (a <= fst (uniform_real a b e))%Q
  ∧ (fst (uniform_real a b e) <= b)%Q
  ∧ ((a < b)%Q → (fst (uniform_real a b e) < b)%Q).
Proof.
  intros [Hcan _] Hab. unfold uniform_real.
  pose proof (Hcan e) as [Hu0 Hu1].
  destruct (canonical e) as [u e1]. simpl in *.
  assert (Hp : (0 <= u * (b - a))%Q) by (apply Qmult_le_0_compat; lra).
  assert (Hq : (u * (b - a) <= 1 * (b - a))%Q)
    by (apply Qmult_le_compat_r; lra).
  split; [lra|]. split; [lra|]. intros Hlt.
  assert (Hs : (u * (b - a) < 1 * (b - a))%Q)
    by (apply Qmult_lt_compat_r; lra).
  lra.
Qed.

(** X16. The start point of an iteration lies in the square [-2, 2) × [-2, 2)
    when it is drawn uniformly, and otherwise within the locality radius
    of one of the good points, on both axes. *)
Theorem propose_in_range (th : BuddhabrotThread Q) (e e' : E) c :
  lawful E → (0 <= point_radius th)%Q →
  propose th e = Some (c, e') →
  ((-2 <= re c)%Q ∧ (re c < 2)%Q ∧ (-2 <= im c)%Q ∧ (im c < 2)%Q)
  ∨ ∃ rmid imid,
      In (rmid, imid) (good_points th)
      ∧ (rmid - point_radius th <= re c)%Q ∧ (re c <= rmid + point_radius th)%Q
      ∧ (imid - point_radius th <= im c)%Q ∧ (im c <= imid + point_radius th)%Q.
Proof.
  intros Hlaw Hr. unfold propose.
  destruct (bernoulli (p_uniform th) e) as [[] e1].
  - pose proof (uniform_real_range (of_Z (-2)) (of_Z 2) e1 Hlaw (proj1 domain_bounds))
      as (Ha1 & _ & Ha2).
    destruct (uniform_real (of_Z (-2)) (of_Z 2) e1) as [cr e2].
    pose proof (uniform_real_range (of_Z (-2)) (of_Z 2) e2 Hlaw (proj1 domain_bounds))
      as (Hb1 & _ & Hb2).
    destruct (uniform_real (of_Z (-2)) (of_Z 2) e2) as [ci e3].
    intros Heq. inversion Heq; subst. left. simpl in *.
    repeat split; [exact Ha1|apply Ha2, domain_bounds|exact Hb1|apply Hb2, domain_bounds].
  - destruct (point_idx_dist th e1) as [idx e2].
    destruct (vec_get (good_points th) idx) as [[rmid imid]|] eqn:Hgp; [|discriminate].
    cbn [mbind option_bind].
    assert (Hra : (sub rmid (point_radius th) <= add rmid (point_radius th))%Q)
      by (simpl; lra).
    assert (Hia : (sub imid (point_radius th) <= add imid (point_radius th))%Q)
      by (simpl; lra).
    pose proof (uniform_real_range _ _ e2 Hlaw Hra) as (Ha1 & Ha2 & _).
    destruct (uniform_real (sub rmid _) (add rmid _) e2) as [cr e3].
    pose proof (uniform_real_range _ _ e3 Hlaw Hia) as (Hb1 & Hb2 & _).
    destruct (uniform_real (sub imid _) (add imid _) e3) as [ci e4].
    intros Heq. inversion Heq; subst. right. exists rmid, imid. simpl in *.
    split; [|repeat split; assumption].
    apply vec_get_Some in Hgp as [_ Hgp].
    apply list_elem_of_In. eapply list_elem_of_lookup_2. exact Hgp.
Qed.

Lemma propose_defined (th : BuddhabrotThread Q) (e : E) :
  lawful E → good_points th ≠ [] → Z.of_nat (length (good_points th)) < 2 ^ 64 →
  ∃ c e', propose th e = Some (c, e').
Proof.
  intros [_ Hint] Hne Hlen. unfold propose.
  destruct (bernoulli (p_uniform th) e) as [[] e1].
  - destruct (uniform_real _ _ e1) as [cr e2].
    destruct (uniform_real _ _ e2) as [ci e3]. eauto.
  - unfold point_idx_dist.
    assert (Hpos : 1 ≤ Z.of_nat (length (good_points th))).
    { destruct (good_points th); [congruence|simpl; lia]. }
    rewrite wrap64_small by lia.
    pose proof (Hint 0 (Z.of_nat (length (good_points th)) - 1) e1 ltac:(lia)) as Hidx.
    destruct (uniform_int 0 _ e1) as [idx e2]. simpl in Hidx.
    destruct (vec_get_in_range (good_points th) idx) as [[rmid imid] Hgp]; [lia|].
    rewrite Hgp. simpl.
    destruct (uniform_real _ _ e2) as [cr e3].
    destruct (uniform_real _ _ e3) as [ci e4]. eauto.
Qed.

(** X20. With at least one good point, the orbit buffer reserved, and
    the parameters the distributions require (a mix probability in [0, 1]
    and a radius that is not negative), [sample] completes: the index it
    draws is inside the good-point sequence and the cells it increments
    are inside the histogram. *)
Theorem sample_completes_with_good_points (rd : random_device) n
    (th : BuddhabrotThread Q) :
  lawful E →
  reserve (max_iter th) = true →
  (0 <= p_uniform th)%Q → (p_uniform th <= 1)%Q →
  (0 <= point_radius th)%Q →
  good_points th ≠ [] → Z.of_nat (length (good_points th)) < 2 ^ 64 →
  1 ≤ size th → size th * size th < 2 ^ 64 →
  length (counts th) = Z.to_nat (size th * size th) →
  0 ≤ n →
  ∃ r : run Q E, sample rd n th = Some r.
Proof.
  intros Hlaw Hres _ _ _ Hne Hgl H1 Hsq Hlen Hn. unfold sample. rewrite Hres.
  destruct (for_range_inv
              (λ (_ : Z) (r : run Q E),
                 size (self r) = size th
                 ∧ good_points (self r) = good_points th
                 ∧ length (counts (self r)) = length (counts th))
              sample_step 0 n (Run (seeded rd) th [])) as (r & Hr & _).
  - exact Hn.
  - repeat split.
  - intros k t _ (Hsz & Hgp & Hlt).
    destruct (propose_defined (self t) (eng t) Hlaw) as (c & e' & Hprop).
    { now rewrite Hgp. } { now rewrite Hgp. }
    destruct (accumulate_completes (self t) c) as (cs & Hcs & Hlcs).
    { now rewrite Hsz. } { now rewrite Hsz. } { now rewrite Hsz, Hlt. }
    destruct (sample_step_counts k t c e' cs Hprop Hcs)
      as (t' & Ht' & Hc' & _ & Hs' & _ & _ & Hg' & _).
    exists t'. split; [exact Ht'|]. repeat split; congruence.
  - rewrite Hr. simpl. eauto.
Qed.
End StartPoints.

Lemma propose_in_range_witness :
  lawful nat ∧ (0 <= point_radius (worker 4 0 [(1, 1)%Q]))%Q
  ∧ propose (worker 4 0 [(1, 1)%Q]) 3%nat
    = Some (Complex (1 - (1 # 2) + (5 # 8) * (1 + (1 # 2) - (1 - (1 # 2))))
                    (1 - (1 # 2) + (6 # 8) * (1 + (1 # 2) - (1 - (1 # 2)))), 7%nat)%Q
  ∧ (((-2 <= 1 - (1 # 2) + (5 # 8) * (1 + (1 # 2) - (1 - (1 # 2))))%Q
      ∧ (1 - (1 # 2) + (5 # 8) * (1 + (1 # 2) - (1 - (1 # 2))) < 2)%Q
      ∧ (-2 <= 1 - (1 # 2) + (6 # 8) * (1 + (1 # 2) - (1 - (1 # 2))))%Q
      ∧ (1 - (1 # 2) + (6 # 8) * (1 + (1 # 2) - (1 - (1 # 2))) < 2)%Q)
     ∨ ∃ rmid imid,
         In (rmid, imid) [(1, 1)%Q]
         ∧ (rmid - (1 # 2) <= 1 - (1 # 2) + (5 # 8) * (1 + (1 # 2) - (1 - (1 # 2))))%Q
         ∧ (1 - (1 # 2) + (5 # 8) * (1 + (1 # 2) - (1 - (1 # 2))) <= rmid + (1 # 2))%Q
         ∧ (imid - (1 # 2) <= 1 - (1 # 2) + (6 # 8) * (1 + (1 # 2) - (1 - (1 # 2))))%Q
         ∧ (1 - (1 # 2) + (6 # 8) * (1 + (1 # 2) - (1 - (1 # 2))) <= imid + (1 # 2))%Q).
Proof.
  split; [exact stride_engine_lawful|]. split; [discriminate|].
  split; [reflexivity|].
  apply (propose_in_range (worker 4 0 [(1, 1)%Q]) 3%nat 7%nat
           (Complex (1 - (1 # 2) + (5 # 8) * (1 + (1 # 2) - (1 - (1 # 2))))
                    (1 - (1 # 2) + (6 # 8) * (1 + (1 # 2) - (1 - (1 # 2)))))%Q
           stride_engine_lawful);
    [discriminate|reflexivity].
Defined.

Lemma sample_completes_with_good_points_witness :
  lawful nat
  ∧ reserve (max_iter (worker 4 (1 # 2) [(0, 0)%Q])) = true
  ∧ good_points (worker 4 (1 # 2) [(0, 0)%Q]) ≠ []
  ∧ ∃ r, sample (E := nat) 0 20 (worker 4 (1 # 2) [(0, 0)%Q]) = Some r.
Proof.
  split; [exact stride_engine_lawful|]. split; [reflexivity|].
  split; [discriminate|].
  apply (sample_completes_with_good_points 0 20 (worker 4 (1 # 2) [(0, 0)%Q]));
    [exact stride_engine_lawful|reflexivity|discriminate|discriminate
    |discriminate|discriminate|simpl; lia|simpl; lia|simpl; lia
    |reflexivity|lia].
Defined.

(** * Further properties of the aggregator *)

Section AggregatorFacts.
Context {T : Type}.
Implicit Types (th : BuddhabrotThread T) (threads : list (BuddhabrotThread T)).

Lemma merge_all_None result threads :
  merge_all result threads = None
  ↔ Exists (λ th, (length (counts th) < length result)%nat) threads.
Proof.
  revert result. induction threads as [|th threads IH]; intros result; simpl.
  - split; [discriminate|]. intros Hex. inversion Hex.
  - unfold merge_into.
    destruct (Nat.leb_spec (length result) (length (counts th))) as [Hle|Hlt]; simpl.
    + rewrite IH, length_zip_with.
      replace (length result `min` length (counts th))%nat with (length result) by lia.
      rewrite Exists_cons. split; [tauto|].
      intros [Hth|Hex]; [lia|exact Hex].
    + split; [intros _; now left|reflexivity].
Qed.

(** X21. The aggregator is undefined exactly when the list of workers is empty
    or some worker's histogram is shorter than the square of the first
    worker's side length; a longer histogram is read only that far. *)
Theorem merge_results_undefined_iff threads :
  merge_results threads = None
  ↔ match head threads with
    | None => True
    | Some front =>
        Exists (λ th, (length (counts th)
                       < Z.to_nat (wrap64 (size front * size front)))%nat) threads
    end.
Proof.
  unfold merge_results. destruct threads as [|front rest]; [easy|].
  cbn [head mbind option_bind]. rewrite merge_all_None.
  now rewrite length_replicate.
Qed.

Lemma cell_sum_app threads1 threads2 i :
  cell_sum (threads1 ++ threads2) i = cell_sum threads1 i + cell_sum threads2 i.
Proof. induction threads1 as [|th l IH]; simpl; [reflexivity|]. rewrite IH. lia. Qed.

Lemma wrap64_add a b : wrap64 (wrap64 a + wrap64 b) = wrap64 (a + b).
Proof. unfold wrap64. now rewrite <- Zplus_mod. Qed.

(** X22. Workers can be merged in groups: the merge of two lists of workers of
    the same dimensions is the cell-wise sum, in unsigned 64-bit arithmetic,
    of the merges of the two lists. *)
Theorem merge_results_app S threads1 threads2 r1 r2 :
  same_dimensions S threads1 → same_dimensions S threads2 →
  merge_results threads1 = Some r1 → merge_results threads2 = Some r2 →
  merge_results (threads1 ++ threads2)
  = Some (zip_with (λ a b, wrap64 (a + b)) r1 r2).
Proof.
  intros Hd1 Hd2 Hr1 Hr2.
  assert (Hn1 : threads1 ≠ []) by (intros ->; discriminate).
  assert (Hn2 : threads2 ≠ []) by (intros ->; discriminate).
  destruct (merge_results_cells S threads1 Hn1 Hd1) as (r1' & Hr1' & Hl1 & Hc1).
  destruct (merge_results_cells S threads2 Hn2 Hd2) as (r2' & Hr2' & Hl2 & Hc2).
  assert (r1' = r1) as -> by congruence. assert (r2' = r2) as -> by congruence.
  destruct (merge_results_cells S (threads1 ++ threads2)) as (r & Hr & Hl & Hc).
  { destruct threads1; [congruence|discriminate]. }
  { unfold same_dimensions. apply Forall_app. split; assumption. }
  rewrite Hr. f_equal. apply list_eq. intros i.
  destruct (decide (i < length r)%nat) as [Hi|Hi].
  - rewrite Hc by lia. rewrite lookup_zip_with, Hc1, Hc2 by lia. simpl.
    now rewrite cell_sum_app, wrap64_add.
  - rewrite !lookup_ge_None_2; [reflexivity|rewrite length_zip_with; lia|lia].
Qed.

(** X23. Merging a single worker whose cells are unsigned 64-bit values returns
    its histogram. *)
Theorem merge_results_single th :
  length (counts th) = Z.to_nat (wrap64 (size th * size th)) →
  Forall (λ c, 0 ≤ c < 2 ^ 64) (counts th) →
  merge_results [th] = Some (counts th).
Proof.
  intros Hlen Hrange.
  destruct (merge_results_cells (size th) [th]) as (r & Hr & Hl & Hc).
  { discriminate. }
  { repeat constructor. exact Hlen. }
  rewrite Hr. f_equal. apply list_eq. intros i.
  destruct (decide (i < length r)%nat) as [Hi|Hi].
  - rewrite Hc by exact Hi. simpl.
    destruct (lookup_lt_is_Some_2 (counts th) i) as [c Hci]; [lia|].
    rewrite Hci. simpl. rewrite Z.add_0_r, wrap64_small; [reflexivity|].
    rewrite Forall_forall in Hrange. apply Hrange.
    eapply list_elem_of_lookup_2. exact Hci.
  - rewrite !lookup_ge_None_2; [reflexivity|lia|lia].
Qed.
End AggregatorFacts.

Lemma merge_results_app_witness :
  same_dimensions 2 [set_counts (worker 2 1 []) [1; 2; 3; 4]]
  ∧ same_dimensions 2 [set_counts (worker 2 1 []) [10; 20; 30; 40]]
  ∧ merge_results [set_counts (worker 2 1 []) [1; 2; 3; 4]] = Some [1; 2; 3; 4]
  ∧ merge_results [set_counts (worker 2 1 []) [10; 20; 30; 40]] = Some [10; 20; 30; 40]
  ∧ merge_results ([set_counts (worker 2 1 []) [1; 2; 3; 4]]
                   ++ [set_counts (worker 2 1 []) [10; 20; 30; 40]])
    = Some (zip_with (λ a b, wrap64 (a + b)) [1; 2; 3; 4] [10; 20; 30; 40]).
Proof.
  split; [repeat constructor|]. split; [repeat constructor|].
  split; [reflexivity|]. split; [reflexivity|].
  apply (merge_results_app 2); [repeat constructor|repeat constructor
                               |reflexivity|reflexivity].
Defined.

Lemma merge_results_single_witness :
  length (counts (set_counts (worker 2 1 []) [1; 2; 3; 4]))
  = Z.to_nat (wrap64 (size (set_counts (worker 2 1 []) [1; 2; 3; 4])
                      * size (set_counts (worker 2 1 []) [1; 2; 3; 4])))
  ∧ Forall (λ c, 0 ≤ c < 2 ^ 64) (counts (set_counts (worker 2 1 []) [1; 2; 3; 4]))
  ∧ merge_results [set_counts (worker 2 1 []) [1; 2; 3; 4]] = Some [1; 2; 3; 4].
Proof.
  split; [reflexivity|]. split; [repeat constructor; simpl; lia|].
  apply (merge_results_single (set_counts (worker 2 1 []) [1; 2; 3; 4]));
    [reflexivity|repeat constructor; simpl; lia].
Defined.

(** * Properties of the colormap lookup *)

Lemma Qtrunc_lt (q : Q) (m : Z) :
  (0 <= q)%Q → (q < inject_Z m)%Q → 0 ≤ Qtrunc q < m.
Proof.
  intros H0 Hm. rewrite Qtrunc_floor by exact H0. split.
  - change 0 with (Qfloor 0). now apply Qfloor_resp_le.
  - pose proof (Qfloor_le q) as Hfl.
    assert (Hlt : (inject_Z (Qfloor q) < inject_Z m)%Q)
      by (eapply Qle_lt_trans; eassumption).
    now rewrite <- Zlt_Qlt in Hlt.
Qed.

Lemma clamp_unit_lt (d : Q) : (d < 1)%Q → (clamp d (of_Z 0) (of_Z 1) < 1)%Q.
Proof.
  intros Hd. unfold clamp, of_Z. simpl.
  destruct (Qltb d (inject_Z 0)) eqn:Hlo; [reflexivity|].
  destruct (Qltb (inject_Z 1) d) eqn:Hhi; [|exact Hd].
  apply Qltb_lt in Hhi. change (inject_Z 1) with 1%Q in Hhi. lra.
Qed.

Lemma clamp_unit_ge (d : Q) : (1 <= d)%Q → (clamp d (of_Z 0) (of_Z 1) == 1)%Q.
Proof.
  intros Hd. unfold clamp, of_Z. simpl.
  destruct (Qltb d (inject_Z 0)) eqn:Hlo.
  { apply Qltb_lt in Hlo. change (inject_Z 0) with 0%Q in Hlo. lra. }
  destruct (Qltb (inject_Z 1) d) eqn:Hhi; [reflexivity|].
  apply Qltb_ge in Hhi. change (inject_Z 1) with 1%Q in Hhi. lra.
Qed.

Section ColormapFacts.
Variable table : cmap_table → list (Q * Q * Q).

(** The scaled value of [v] lies in [0, n - 1] for a table of [n] rows, and
    reaches [n - 1] exactly when [v] is at least [vmax]. *)
Lemma scaled_value_range (cm : Colormap Q) (v : Q) n :
  1 ≤ n → (vmin cm < vmax cm)%Q →
  (0 <= remap (vmin cm) (vmax cm) (of_Z 0) (of_Z (n - 1)) v)%Q
  ∧ (remap (vmin cm) (vmax cm) (of_Z 0) (of_Z (n - 1)) v <= inject_Z (n - 1))%Q
  ∧ ((vmax cm <= v)%Q →
     (remap (vmin cm) (vmax cm) (of_Z 0) (of_Z (n - 1)) v == inject_Z (n - 1))%Q)
  ∧ ((v < vmax cm)%Q → 2 ≤ n →
     (remap (vmin cm) (vmax cm) (of_Z 0) (of_Z (n - 1)) v < inject_Z (n - 1))%Q).
Proof.
  intros Hn Hv.
  destruct (remap_range (vmin cm) (vmax cm) v (n - 1) ltac:(lia)) as [Hlo Hhi].
  split; [exact Hlo|]. split; [exact Hhi|].
  unfold remap, lerp. simpl.
  set (d := ((v - vmin cm) / (vmax cm - vmin cm))%Q).
  pose proof (clamp_unit_range d) as [Ht0 Ht1].
  pose proof (clamp_unit_lt d) as Htlt. pose proof (clamp_unit_ge d) as Htge.
  change (clamp d (of_Z 0) (of_Z 1)) with (clamp d (inject_Z 0) (inject_Z 1))
    in Ht0, Ht1, Htlt, Htge.
  set (t := clamp d (inject_Z 0) (inject_Z 1)) in *.
  change (inject_Z 0) with 0%Q.
  split.
  - intros Hge.
    assert (Hd : (1 <= d)%Q) by (apply Qle_shift_div_l; lra).
    rewrite (Htge Hd). ring.
  - intros Hlt H2.
    assert (Hd : (d < 1)%Q) by (apply Qlt_shift_div_r; lra).
    specialize (Htlt Hd).
    assert (Hpos : (0 < inject_Z (n - 1))%Q).
    { change 0%Q with (inject_Z 0). rewrite <- Zlt_Qlt. lia. }
    assert (Hs : (t * inject_Z (n - 1) < 1 * inject_Z (n - 1))%Q)
      by (apply Qmult_lt_compat_r; assumption).
    lra.
Qed.

(** X24. For a table of at least two rows and a range with [vmin < vmax], the
    lookup of [v] is undefined exactly when [v] is at least [vmax]: the
    scaled value is then the last row's index, and the row after the last
    is read. *)
Theorem colormap_apply_undefined_iff (cm : Colormap Q) (v : Q) :
  2 ≤ Z.of_nat (length (table (cmap cm))) < 2 ^ 31 →
  (vmin cm < vmax cm)%Q →
  colormap_apply table cm v = None ↔ (vmax cm <= v)%Q.
Proof.
  intros Hn Hv. unfold colormap_apply.
  set (rows := table (cmap cm)) in *. set (n := Z.of_nat (length rows)) in *.
  rewrite wrap64_small by lia.
  destruct (scaled_value_range cm v n ltac:(lia) Hv) as (H0 & H1 & Hge & Hlt).
  set (vs := remap (vmin cm) (vmax cm) (of_Z 0) (of_Z (n - 1)) v) in *.
  pose proof (Qtrunc_range vs (n - 1) H0 H1) as Hk.
  change (trunc vs) with (Qtrunc vs).
  assert (Hint : to_int (Qtrunc vs) = Some (Qtrunc vs)).
  { unfold to_int.
    destruct (Z.leb_spec (- 2 ^ 31) (Qtrunc vs)); [|lia].
    destruct (Z.ltb_spec (Qtrunc vs) (2 ^ 31)); [reflexivity|lia]. }
  rewrite Hint. cbn [mbind option_bind].
  rewrite !wrap64_small by lia.
  destruct (vec_get_in_range rows (Qtrunc vs)) as [[[l0 l1] l2] Hl]; [fold n; lia|].
  rewrite Hl. cbn [mbind option_bind].
  destruct (Qlt_le_dec v (vmax cm)) as [Hcase|Hcase].
  - pose proof (Qtrunc_lt vs (n - 1) H0 (Hlt Hcase ltac:(lia))) as Hk'.
    destruct (vec_get_in_range rows (Qtrunc vs + 1)) as [[[r0 r1] r2] Hr]; [fold n; lia|].
    rewrite Hr. split; [discriminate|]. intros Hc. lra.
  - assert (Hkn : Qtrunc vs = n - 1).
    { apply Qtrunc_unique; [lia| |]; rewrite (Hge Hcase); [lra|].
      rewrite <- Zlt_Qlt. lia. }
    rewrite vec_get_out_of_range by (fold n; lia).
    split; [intros _; exact Hcase|reflexivity].
Qed.
End ColormapFacts.

Lemma colormap_apply_undefined_iff_witness :
  2 ≤ Z.of_nat (length (two_rows (cmap (new_Colormap (T := Q) mako)))) < 2 ^ 31
  ∧ (vmin (new_Colormap (T := Q) mako) < vmax (new_Colormap (T := Q) mako))%Q
  ∧ (colormap_apply two_rows (new_Colormap mako) 1%Q = None
     ↔ (vmax (new_Colormap (T := Q) mako) <= 1)%Q).
Proof.
  split; [simpl; lia|]. split; [reflexivity|].
  apply (colormap_apply_undefined_iff two_rows (new_Colormap mako) 1%Q);
    [simpl; lia|reflexivity].
Defined.

Lemma lerp_between (lo hi l r f : Q) :
  (0 <= f)%Q → (f <= 1)%Q → (lo <= l)%Q → (l <= hi)%Q → (lo <= r)%Q → (r <= hi)%Q →
  (lo <= lerp l r f)%Q ∧ (lerp l r f <= hi)%Q.
Proof.
  intros Hf0 Hf1 Hl0 Hl1 Hr0 Hr1. unfold lerp. simpl.
  assert (H1 : (0 <= (1 - f) * (l - lo))%Q) by (apply Qmult_le_0_compat; lra).
  assert (H2 : (0 <= f * (r - lo))%Q) by (apply Qmult_le_0_compat; lra).
  assert (H3 : (0 <= (1 - f) * (hi - l))%Q) by (apply Qmult_le_0_compat; lra).
  assert (H4 : (0 <= f * (hi - r))%Q) by (apply Qmult_le_0_compat; lra).
  split; lra.
Qed.

Lemma Qtrunc_frac (q : Q) :
  (0 <= q)%Q → (0 <= q - inject_Z (Qtrunc q))%Q ∧ (q - inject_Z (Qtrunc q) <= 1)%Q.
Proof.
  intros H0. rewrite Qtrunc_floor by exact H0.
  pose proof (Qfloor_le q) as Hfl. pose proof (Qlt_floor q) as Hfu.
  rewrite inject_Z_plus in Hfu. change (inject_Z 1) with 1%Q in Hfu.
  split; lra.
Qed.

Section ColormapRange.
Variable table : cmap_table → list (Q * Q * Q).

(** X25. Every channel of a looked-up color lies between the bounds that hold
    for the channels of the table: the interpolation fraction is in
    [0, 1). *)
Theorem colormap_apply_within (cm : Colormap Q) (v lo hi : Q) out :
  1 ≤ Z.of_nat (length (table (cmap cm))) < 2 ^ 31 →
  (vmin cm < vmax cm)%Q →
  Forall (λ row : Q * Q * Q,
            (lo <= row.1.1)%Q ∧ (row.1.1 <= hi)%Q
            ∧ (lo <= row.1.2)%Q ∧ (row.1.2 <= hi)%Q
            ∧ (lo <= row.2)%Q ∧ (row.2 <= hi)%Q) (table (cmap cm)) →
  colormap_apply table cm v = Some out →
  (lo <= out.1.1)%Q ∧ (out.1.1 <= hi)%Q
  ∧ (lo <= out.1.2)%Q ∧ (out.1.2 <= hi)%Q
  ∧ (lo <= out.2)%Q ∧ (out.2 <= hi)%Q.
Proof.
  intros Hn Hv Hrows. unfold colormap_apply.
  set (rows := table (cmap cm)) in *. set (n := Z.of_nat (length rows)) in *.
  rewrite wrap64_small by lia.
  destruct (scaled_value_range cm v n ltac:(lia) Hv) as (H0 & H1 & _).
  set (vs := remap (vmin cm) (vmax cm) (of_Z 0) (of_Z (n - 1)) v) in *.
  pose proof (Qtrunc_range vs (n - 1) H0 H1) as Hk.
  pose proof (Qtrunc_frac vs H0) as [Hf0 Hf1].
  change (trunc vs) with (Qtrunc vs).
  destruct (to_int (Qtrunc vs)) as [i|] eqn:Hint; [|discriminate].
  assert (i = Qtrunc vs) as ->.
  { unfold to_int in Hint. destruct (_ && _); congruence. }
  cbn [mbind option_bind]. rewrite !wrap64_small by lia.
  destruct (vec_get rows (Qtrunc vs)) as [[[l0 l1] l2]|] eqn:Hl; [|discriminate].
  cbn [mbind option_bind].
  destruct (vec_get rows (Qtrunc vs + 1)) as [[[r0 r1] r2]|] eqn:Hr; [|discriminate].
  cbn [mbind option_bind]. intros [= <-]. cbn [fst snd].
  apply vec_get_Some in Hl as [_ Hl]. apply vec_get_Some in Hr as [_ Hr].
  rewrite Forall_forall in Hrows.
  pose proof (Hrows _ (list_elem_of_lookup_2 _ _ _ Hl)) as (A1 & A2 & A3 & A4 & A5 & A6).
  pose proof (Hrows _ (list_elem_of_lookup_2 _ _ _ Hr)) as (B1 & B2 & B3 & B4 & B5 & B6).
  cbn [fst snd] in *.
  change (sub vs (of_Z (Qtrunc vs))) with (vs - inject_Z (Qtrunc vs))%Q.
  destruct (lerp_between lo hi l0 r0 _ Hf0 Hf1 A1 A2 B1 B2).
  destruct (lerp_between lo hi l1 r1 _ Hf0 Hf1 A3 A4 B3 B4).
  destruct (lerp_between lo hi l2 r2 _ Hf0 Hf1 A5 A6 B5 B6).
  repeat split; assumption.
Qed.
End ColormapRange.

Lemma colormap_apply_within_witness :
  colormap_apply two_rows (new_Colormap mako) (1 # 2)%Q
  = Some ((1 # 2)%Q, (1 # 2)%Q, (1 # 2)%Q)
  ∧ (0 <= 1 # 2)%Q ∧ (1 # 2 <= 1)%Q.
Proof.
  split; [reflexivity|].
  destruct (colormap_apply_within two_rows (new_Colormap mako) (1 # 2)%Q 0%Q 1%Q
              ((1 # 2)%Q, (1 # 2)%Q, (1 # 2)%Q)) as (Hlo & Hhi & _);
    [simpl; lia|reflexivity| |reflexivity|split; [exact Hlo|exact Hhi]].
  repeat constructor; discriminate.
Defined.

(** * Properties of the progress bar *)

Lemma to_int32_small z : - 2 ^ 31 ≤ z < 2 ^ 31 → to_int32 z = z.
Proof. intros Hz. unfold to_int32. rewrite Z.mod_small by lia. lia. Qed.

Lemma to_int_small z : - 2 ^ 31 ≤ z < 2 ^ 31 → to_int z = Some z.
Proof.
  intros Hz. unfold to_int.
  destruct (Z.leb_spec (- 2 ^ 31) z); [|lia].
  destruct (Z.ltb_spec z (2 ^ 31)); [reflexivity|lia].
Qed.

(** The two quotients of [print_progress]: the count of full blocks and the
    index of the partial one. *)
Lemma bar_quotients p m :
  0 < m → 0 ≤ p ≤ m →
  0 ≤ 32 * p / m ≤ 32
  ∧ 0 ≤ 256 * p / m - 8 * (32 * p / m) ≤ 7
  ∧ (p < m → 32 * p / m ≤ 31)
  ∧ (p = m → 32 * p / m = 32).
Proof.
  intros Hm Hp.
  pose proof (Z.div_mod (32 * p) m ltac:(lia)) as H1.
  pose proof (Z.mod_pos_bound (32 * p) m Hm) as H2.
  pose proof (Z.div_mod (256 * p) m ltac:(lia)) as H3.
  pose proof (Z.mod_pos_bound (256 * p) m Hm) as H4.
  set (a := 32 * p / m) in *. set (b := 256 * p / m) in *.
  set (ra := (32 * p) mod m) in *. set (rb := (256 * p) mod m) in *.
  assert (Ha0 : 0 ≤ a) by (apply Z.div_pos; lia).
  assert (Ha1 : a ≤ 32) by nia.
  assert (Hd : m * (b - 8 * a) = 8 * ra - rb) by lia.
  assert (Hb0 : 0 ≤ b - 8 * a) by nia.
  assert (Hb1 : b - 8 * a ≤ 7) by nia.
  split; [lia|]. split; [lia|]. split; intros Hc; nia.
Qed.

(** X26. With a progress between 0 and the maximum, the bar has exactly 32
    cells: as many full blocks as 32 times the progress contains the
    maximum, then, unless the progress is complete, one glyph of [eighths]
    whose index is below 8, and spaces. *)
Theorem progress_bar_width p m :
  0 < m → 0 ≤ p ≤ m → p < 2 ^ 56 →
  ∃ cells,
    progress_bar p m = Some cells
    ∧ length cells = 32%nat
    ∧ (∀ i, (i < Z.to_nat (32 * p / m))%nat → cells !! i = last eighths)
    ∧ (p < m →
       0 ≤ 256 * p / m - 8 * (32 * p / m) < 8
       ∧ cells !! Z.to_nat (32 * p / m)
         = eighths !! Z.to_nat (256 * p / m - 8 * (32 * p / m))
       ∧ ∀ i, (Z.to_nat (32 * p / m) < i < 32)%nat → cells !! i = Some " "%string).
Proof.
  intros Hm Hp Hsmall.
  destruct (bar_quotients p m Hm Hp) as (Hw & Hpart & Hlt & Heq).
  unfold progress_bar.
  destruct (Z.eqb_spec m 0) as [->|_]; [lia|].
  rewrite (wrap64_small (32 * p)), (wrap64_small (8 * 32 * p)) by lia.
  replace (8 * 32 * p) with (256 * p) by lia.
  rewrite (to_int32_small (32 * p / m)) by lia.
  rewrite (to_int_small (8 * (32 * p / m))) by lia. cbn [mbind option_bind].
  rewrite (wrap64_small (256 * p / m - 8 * (32 * p / m))) by lia.
  rewrite (to_int32_small (256 * p / m - 8 * (32 * p / m))) by lia.
  change (last eighths) with (Some "█"%string). cbn [mbind option_bind].
  destruct (Z.eqb_spec p m) as [Hpm|Hpm].
  - eexists. split; [reflexivity|]. rewrite length_replicate.
    split; [rewrite Heq by exact Hpm; reflexivity|].
    split; [intros i Hi; now apply lookup_replicate_2|lia].
  - specialize (Hlt ltac:(lia)).
    rewrite (wrap64_small (256 * p / m - 8 * (32 * p / m))) by lia.
    destruct (vec_get_in_range eighths (256 * p / m - 8 * (32 * p / m)))
      as [cell Hcell]; [simpl; lia|].
    rewrite Hcell. cbn [mbind option_bind].
    rewrite (wrap64_small (32 - 32 * p / m - 1)) by lia.
    destruct (Z.ltb_spec (32 - 32 * p / m - 1) (2 ^ 63)); [|lia].
    eexists. split; [reflexivity|].
    split; [rewrite !length_app, !length_replicate; simpl; lia|].
    split.
    + intros i Hi. rewrite lookup_app_l by (rewrite length_replicate; lia).
      now apply lookup_replicate_2.
    + intros _. split; [lia|]. split.
      * rewrite lookup_app_r by (rewrite length_replicate; lia).
        rewrite length_replicate, Nat.sub_diag. simpl.
        now apply vec_get_Some in Hcell as [_ ->].
      * intros i Hi. rewrite lookup_app_r by (rewrite length_replicate; lia).
        rewrite length_replicate.
        destruct (i - Z.to_nat (32 * p / m))%nat as [|j] eqn:Hj; [lia|]. simpl.
        apply lookup_replicate_2. lia.
Qed.

Lemma progress_bar_width_witness :
  0 < 12 ∧ 0 ≤ 5 ≤ 12 ∧ 5 < 2 ^ 56
  ∧ ∃ cells, progress_bar 5 12 = Some cells ∧ length cells = 32%nat.
Proof.
  split; [lia|]. split; [lia|]. split; [lia|].
  destruct (progress_bar_width 5 12) as (cells & Hc & Hl & _); [lia..|].
  exists cells. split; assumption.
Defined.

(** X27. A progress beyond the maximum does not give a bar: the count of spaces
    wraps around and the string constructor throws, unless the glyph index
    has left [eighths] before. *)
Theorem progress_bar_overrun p m :
  0 < m → m < p → p < 2 ^ 56 → 32 * p / m < 2 ^ 28 →
  progress_bar p m = None.
Proof.
  intros Hm Hp Hsmall Hfit.
  assert (Hw : 32 ≤ 32 * p / m) by (apply Z.div_le_lower_bound; lia).
  unfold progress_bar.
  destruct (Z.eqb_spec m 0) as [->|_]; [lia|].
  rewrite (wrap64_small (32 * p)) by lia.
  rewrite (to_int32_small (32 * p / m)) by lia.
  rewrite (to_int_small (8 * (32 * p / m))) by lia. cbn [mbind option_bind].
  change (last eighths) with (Some "█"%string). cbn [mbind option_bind].
  destruct (Z.eqb_spec p m) as [Hpm|_]; [lia|].
  destruct (vec_get eighths _); [|reflexivity]. cbn [mbind option_bind].
  destruct (Z.ltb_spec (wrap64 (32 - 32 * p / m - 1)) (2 ^ 63)) as [Hlt|]; [|reflexivity].
  exfalso. unfold wrap64 in Hlt.
  replace (32 - 32 * p / m - 1) with ((31 - 32 * p / m + 2 ^ 64) + (-1) * 2 ^ 64) in Hlt by lia.
  rewrite Z.mod_add, Z.mod_small in Hlt by lia. lia.
Qed.

Lemma progress_bar_overrun_witness :
  0 < 12 ∧ 12 < 13 ∧ 13 < 2 ^ 56 ∧ 32 * 13 / 12 < 2 ^ 28
  ∧ progress_bar 13 12 = None.
Proof.
  split; [lia|]. split; [lia|]. split; [lia|]. split; [reflexivity|].
  apply (progress_bar_overrun 13 12); [lia|lia|lia|reflexivity].
Defined.

(** * Properties of the lattice *)

Lemma lattice_coord_value size k :
  0 < size →
  (lattice_coord (T := Q) size k == -2 + 4 * (inject_Z k / inject_Z size))%Q.
Proof.
  intros Hs. unfold lattice_coord, lerp, of_Z. simpl.
  assert (Hq : (0 < inject_Z size)%Q).
  { change 0%Q with (inject_Z 0). now rewrite <- Zlt_Qlt. }
  change (inject_Z 2) with 2%Q. change (inject_Z (-2)) with (-2)%Q.
  field. lra.
Qed.

(** X12. The lattice coordinates of the indices of a row lie in [-2, 2) and
    increase with the index: distinct cells have distinct coordinates. *)
Theorem lattice_coord_range size k :
  0 < size → 0 ≤ k < size →
  (-2 <= lattice_coord (T := Q) size k)%Q
  ∧ (lattice_coord (T := Q) size k < 2)%Q
  ∧ ∀ k', k < k' → (lattice_coord (T := Q) size k < lattice_coord size k')%Q.
Proof.
  intros Hs Hk.
  assert (Hq : (0 < inject_Z size)%Q).
  { change 0%Q with (inject_Z 0). now rewrite <- Zlt_Qlt. }
  assert (Hk0 : (0 <= inject_Z k)%Q).
  { change 0%Q with (inject_Z 0). rewrite <- Zle_Qle. lia. }
  assert (Hk1 : (inject_Z k < inject_Z size)%Q) by (rewrite <- Zlt_Qlt; lia).
  rewrite (lattice_coord_value size k Hs).
  assert (Hd0 : (0 <= inject_Z k / inject_Z size)%Q)
    by (apply Qle_shift_div_l; lra).
  assert (Hd1 : (inject_Z k / inject_Z size < 1)%Q)
    by (apply Qlt_shift_div_r; lra).
  split; [lra|]. split; [lra|].
  intros k' Hk'.
  rewrite (lattice_coord_value size k' Hs), ?(lattice_coord_value size k Hs).
  assert (Hkk : (inject_Z k < inject_Z k')%Q) by (rewrite <- Zlt_Qlt; lia).
  assert (Hlt : (inject_Z k / inject_Z size < inject_Z k' / inject_Z size)%Q).
  { unfold Qdiv. apply Qmult_lt_compat_r; [|exact Hkk]. now apply Qinv_lt_0_compat. }
  lra.
Qed.

Lemma lattice_coord_range_witness :
  0 < 4 ∧ 0 ≤ 3 < 4
  ∧ (-2 <= lattice_coord (T := Q) 4 3)%Q ∧ (lattice_coord (T := Q) 4 3 < 2)%Q.
Proof.
  split; [lia|]. split; [lia|].
  destruct (lattice_coord_range 4 3) as (Hlo & Hhi & _); [lia|lia|].
  split; assumption.
Defined.

Section JitterFacts.
Context {E : Type} `{Engine Q E}.

(** X13. The jittered point of a cell lies within a quarter of the lattice step
    [4 / size] of the cell's lattice coordinates, on both axes. *)
Theorem jittered_point_near size x y :
  lawful E → 0 < size →
  (lattice_coord size x - 1 / inject_Z size
   <= re (jittered_point (E := E) size x y))%Q
  ∧ (re (jittered_point (E := E) size x y)
     < lattice_coord size x + 1 / inject_Z size)%Q
  ∧ (lattice_coord size y - 1 / inject_Z size
     <= im (jittered_point (E := E) size x y))%Q
  ∧ (im (jittered_point (E := E) size x y)
     < lattice_coord size y + 1 / inject_Z size)%Q.
Proof.
  intros Hlaw Hs. unfold jittered_point.
  assert (Hq : (0 < inject_Z size)%Q).
  { change 0%Q with (inject_Z 0). now rewrite <- Zlt_Qlt. }
  set (lo := mul (of_Q (- (1 # 4))) (div (of_Z 4) (of_Z size))).
  set (hi := mul (of_Q (1 # 4)) (div (of_Z 4) (of_Z size))).
  assert (Hlo : (lo == - (1 / inject_Z size))%Q).
  { unfold lo, of_Z. simpl. change (inject_Z 4) with 4%Q. field. lra. }
  assert (Hhi : (hi == 1 / inject_Z size)%Q).
  { unfold hi, of_Z. simpl. change (inject_Z 4) with 4%Q. field. lra. }
  assert (Hpos : (0 < 1 / inject_Z size)%Q) by (apply Qlt_shift_div_l; lra).
  assert (Hle : (lo <= hi)%Q) by (rewrite Hlo, Hhi; lra).
  assert (Hlt : (lo < hi)%Q) by (rewrite Hlo, Hhi; lra).
  set (e0 := engine_after (2 * Z.to_nat (y * size + x)) default_engine).
  pose proof (uniform_real_range lo hi e0 Hlaw Hle) as (Ha1 & _ & Ha2).
  specialize (Ha2 Hlt).
  destruct (uniform_real lo hi e0) as [o1 e1].
  pose proof (uniform_real_range lo hi e1 Hlaw Hle) as (Hb1 & _ & Hb2).
  specialize (Hb2 Hlt).
  destruct (uniform_real lo hi e1) as [o2 e2].
  cbn [fst snd re im] in *. rewrite Hlo in Ha1, Hb1. rewrite Hhi in Ha2, Hb2.
  unfold lattice_coord, lerp, of_Z. simpl.
  change (inject_Z 2) with 2%Q. change (inject_Z (-2)) with (-2)%Q.
  repeat split; lra.
Qed.
End JitterFacts.

Lemma jittered_point_near_witness :
  lawful nat ∧ 0 < 4
  ∧ (lattice_coord 4 1 - 1 / inject_Z 4
     <= re (jittered_point (E := nat) 4 1 2))%Q
  ∧ (re (jittered_point (E := nat) 4 1 2) < lattice_coord 4 1 + 1 / inject_Z 4)%Q.
Proof.
  split; [exact stride_engine_lawful|]. split; [lia|].
  destruct (jittered_point_near (E := nat) 4 1 2 stride_engine_lawful)
    as (Hlo & Hhi & _); [lia|].
  split; assumption.
Defined.

(** * Concrete bitmaps *)

Lemma im_edge_uniform_witness :
  (∀ (i : nat) c, [true; true; true; true] !! i = Some c → c = true)
  ∧ (1 < length [true; true; true; true])%nat
  ∧ im_edge [true; true; true; true] 2 !! 1%nat = Some false.
Proof.
  assert (Huni : ∀ (i : nat) c, [true; true; true; true] !! i = Some c → c = true).
  { intros [|[|[|[|i]]]] c Hc; cbv in Hc; congruence. }
  split; [exact Huni|]. split; [simpl; lia|].
  apply (im_edge_uniform [true; true; true; true] 2 true Huni 1%nat). simpl. lia.
Defined.

Lemma im_dilate_monotone_witness :
  length [false; true; false; false] = length [true; true; false; false]
  ∧ (∀ j : nat, [false; true; false; false] !! j = Some true →
       [true; true; false; false] !! j = Some true)
  ∧ im_dilate [false; true; false; false] 2 !! 0%nat = Some true
  ∧ im_dilate [true; true; false; false] 2 !! 0%nat = Some true.
Proof.
  assert (Hsub : ∀ j : nat, [false; true; false; false] !! j = Some true →
                   [true; true; false; false] !! j = Some true).
  { intros [|[|[|[|j]]]] Hj; cbv in Hj |- *; congruence. }
  split; [reflexivity|]. split; [exact Hsub|]. split; [reflexivity|].
  apply (im_dilate_monotone [false; true; false; false] [true; true; false; false] 2
           eq_refl Hsub 0%nat).
  reflexivity.
Defined.
